(** * Non-preemptive CPU scheduling simulators: FCFS and SJF

    A shallow embedding of the two Python modules

      - [src/fcfs_scheduler.py]                          (module [FCFS] below)
      - [src/schedulers/sjf_scheduler_non_preemptive.py] (module [SJF] below)

    and the properties of the scheduling engines proved over it.

    Python integers are unbounded, so every time value is a [Z].
    A [Process] is a mutable object: a scheduler holds references to
    processes, and the same object may be reachable from several places
    (it may even be admitted twice).  The embedding therefore keeps an
    explicit object store [objs : ref -> Process] next to the four
    attributes of the scheduler, and every method is a state transformer
    that may raise an exception. *)

From Stdlib Require Import ZArith Lia.
From Stdlib Require SpecFloat.
From stdpp Require Import base list sorting functions strings pretty.

Local Open Scope Z_scope.

(** ** Exceptions *)

(** The nested classes of [Exceptions], each carrying the message its
    constructor builds, and the built-in exceptions the engines can meet
    ([list.pop] on an empty list, [min] of an empty iterable and
    [list.remove] of an absent item, division by zero, a quotient too
    large for a [float]). *)
Inductive exn : Type :=
| InvalidCompletionTimeError (msg : string)
| MissingTurnaroundTimeError (msg : string)
| MissingWaitingTimeError (msg : string)
| IndexError
| ValueError
| ZeroDivisionError
| OverflowError.

(** What a call produces: a returned value, a raised exception, or no
    answer within the number of loop iterations the model was given. *)
Inductive outcome (A : Type) : Type :=
| Return (a : A)
| Raise (e : exn)
| OutOfFuel.
Arguments Return {A} a.
Arguments Raise {A} e.
Arguments OutOfFuel {A}.

(** ** State-and-exception monad

    A method over a state [St] yields an outcome together with the state
    as the call left it; a raised exception keeps the mutations performed
    before the [raise]. *)
Definition M (St A : Type) : Type := St -> outcome A * St.

Definition ret {St A} (a : A) : M St A := fun s => (Return a, s).

Definition raise {St A} (e : exn) : M St A := fun s => (Raise e, s).

Definition bind {St A B} (m : M St A) (k : A -> M St B) : M St B :=
  fun s =>
    match m s with
    | (Return a, s') => k a s'
    | (Raise e, s') => (Raise e, s')
    | (OutOfFuel, s') => (OutOfFuel, s')
    end.

Definition get {St} : M St St := fun s => (Return s, s).

Definition modify {St} (f : St -> St) : M St unit := fun s => (Return tt, f s).

(** A pure computation that may raise, run inside a method. *)
Definition lift {St A} (o : outcome A) : M St A := fun s => (o, s).

(** [try: m  except <caught>: handler] *)
Definition try_except {St A} (m : M St A) (caught : exn -> bool)
    (handler : M St A) : M St A :=
  fun s =>
    match m s with
    | (Raise e, s') => if caught e then handler s' else (Raise e, s')
    | r => r
    end.

Declare Scope py_scope.
Delimit Scope py_scope with py.
Notation "x <- m ;; k" := (bind m (fun x => k))
  (at level 100, m at next level, right associativity) : py_scope.
Notation "m ;; k" := (bind m (fun _ => k))
  (at level 100, right associativity) : py_scope.
Local Open Scope py_scope.

Definition is_IndexError (e : exn) : bool :=
  match e with IndexError => true | _ => false end.

Definition is_ValueError (e : exn) : bool :=
  match e with ValueError => true | _ => false end.

(** ** Built-in list operations the engines use *)

Section Builtins.
Context {A : Type}.

(** [l.pop(0)]: the first item and the rest, [IndexError] on [[]]. *)
Definition list_pop0 (l : list A) : outcome (A * list A) :=
  match l with
  | [] => Raise IndexError
  | x :: l' => Return (x, l')
  end.

(** [min(it, key=key)]: the running minimum is replaced only by an item
    whose key is strictly smaller, so the first minimal item wins. *)
Fixpoint min_from (key : A -> Z) (best : A) (l : list A) : A :=
  match l with
  | [] => best
  | x :: l' => min_from key (if key x <? key best then x else best) l'
  end.

Definition py_min (key : A -> Z) (l : list A) : outcome A :=
  match l with
  | [] => Raise ValueError
  | x :: l' => Return (min_from key x l')
  end.

(** [l.sort(key=key)] is a stable ascending sort.  Insertion from the
    right, each item going in front of the first item whose key is not
    smaller, is such a sort: the result is a rearrangement of the list
    (lemma [sort_by_perm]) with ascending keys (lemma [sort_by_sorted])
    in which items of equal key keep their order (lemma
    [sort_by_stable]), and there is only one such list. *)
Fixpoint insert_by (key : A -> Z) (x : A) (l : list A) : list A :=
  match l with
  | [] => [x]
  | y :: l' => if key x <=? key y then x :: y :: l' else y :: insert_by key x l'
  end.

Fixpoint sort_by (key : A -> Z) (l : list A) : list A :=
  match l with
  | [] => []
  | x :: l' => insert_by key x (sort_by key l')
  end.
End Builtins.

(** ** The [Process] class (the same text in both modules) *)

Record Process : Type := mkProcess {
  p_id : string;
  arrival_t : Z;
  burst_t : Z;
  completion_t : option Z;
  turnaround_t : option Z;
  waiting_t : option Z
}.

(** [Process.__init__] *)
Definition Process_init (p_id : string) (arrival_t burst_t : Z) : Process :=
  mkProcess p_id arrival_t burst_t None None None.

Definition with_completion_t (v : option Z) (self : Process) : Process :=
  mkProcess (p_id self) (arrival_t self) (burst_t self)
            v (turnaround_t self) (waiting_t self).

Definition with_turnaround_t (v : option Z) (self : Process) : Process :=
  mkProcess (p_id self) (arrival_t self) (burst_t self)
            (completion_t self) v (waiting_t self).

Definition with_waiting_t (v : option Z) (self : Process) : Process :=
  mkProcess (p_id self) (arrival_t self) (burst_t self)
            (completion_t self) (turnaround_t self) v.

Module Exceptions.
Definition completion_error_txt : string :=
  "completion time is smaller than the burst time".
Definition turnaround_error_txt : string := "turnaround time is missing".
Definition waiting_error_txt : string := "waiting time is missing".

(** [Exceptions.InvalidCompletionTimeError()] *)
Definition invalid_completion_time : exn :=
  InvalidCompletionTimeError completion_error_txt.

(** [Exceptions.MissingTurnaroundTimeError(p)] *)
Definition missing_turnaround_time (p : Process) : exn :=
  MissingTurnaroundTimeError
    (String.append turnaround_error_txt (String.append " for " (p_id p))).

(** [Exceptions.MissingWaitingTimeError(p)] *)
Definition missing_waiting_time (p : Process) : exn :=
  MissingWaitingTimeError
    (String.append waiting_error_txt (String.append " for " (p_id p))).
End Exceptions.

(** [Process.set_completion_t] *)
Definition set_completion_t (completion_t' : Z) : M Process unit :=
  self <- get ;;
  if completion_t' <? burst_t self
  then raise Exceptions.invalid_completion_time
  else modify (with_completion_t (Some completion_t')).

(** [Process.set_turnaround_t] *)
Definition set_turnaround_t : M Process unit :=
  self <- get ;;
  match completion_t self with
  | None => ret tt
  | Some c => modify (with_turnaround_t (Some (c - arrival_t self)))
  end.

(** [Process.set_waiting_t] *)
Definition set_waiting_t : M Process unit :=
  self <- get ;;
  match turnaround_t self with
  | None => ret tt
  | Some t => modify (with_waiting_t (Some (t - burst_t self)))
  end.

(** ** The state of a [Scheduler] (the same attributes in both modules) *)

(** A reference to a [Process] object.  Two references are the same
    object exactly when they are equal, which is what [list.remove]
    compares, [Process] defining no [__eq__]. *)
Definition ref : Type := nat.

Record World : Type := mkWorld {
  objs : ref -> Process;
  running : option ref;
  ready_queue : list ref;
  history : list ref;
  total_t : Z
}.

Definition with_objs (v : ref -> Process) (w : World) : World :=
  mkWorld v (running w) (ready_queue w) (history w) (total_t w).

Definition with_running (v : option ref) (w : World) : World :=
  mkWorld (objs w) v (ready_queue w) (history w) (total_t w).

Definition with_ready_queue (v : list ref) (w : World) : World :=
  mkWorld (objs w) (running w) v (history w) (total_t w).

Definition with_history (v : list ref) (w : World) : World :=
  mkWorld (objs w) (running w) (ready_queue w) v (total_t w).

Definition with_total_t (v : Z) (w : World) : World :=
  mkWorld (objs w) (running w) (ready_queue w) (history w) v.

(** [Scheduler.__init__], over the objects that exist. *)
Definition Scheduler_init (objs : ref -> Process) : World :=
  mkWorld objs None [] [] 0.

(** Calling a method of the object behind [r]. *)
Definition call {A} (r : ref) (m : M Process A) : M World A :=
  fun w =>
    let (o, p') := m (objs w r) in
    (o, with_objs (<[r := p']> (objs w)) w).

(** [self.ready_queue.pop(0)] *)
Definition ready_queue_pop0 : M World ref :=
  w <- get ;;
  x <- lift (list_pop0 (ready_queue w)) ;;
  modify (with_ready_queue (snd x)) ;;
  ret (fst x).

(** [while self.running: body].  A [Process] object is always true and
    [None] is false; [body] is given the object the test has just seen.
    [fuel] bounds the number of iterations. *)
Fixpoint while_running (fuel : nat) (body : ref -> M World unit) : M World unit :=
  fun w =>
    match running w with
    | None => (Return tt, w)
    | Some r =>
        match fuel with
        | O => (OutOfFuel, w)
        | S fuel' => (body r ;; while_running fuel' body) w
        end
    end.

(** [Scheduler.update_running_process] (the same text in both modules) *)
Definition update_running_process : M World unit :=
  w <- get ;;
  match running w with
  | None => ret tt
  | Some r =>
      modify (fun w => with_total_t (total_t w + burst_t (objs w r)) w) ;;
      w <- get ;;
      call r (set_completion_t (total_t w)) ;;
      call r set_turnaround_t ;;
      call r set_waiting_t
  end.

(** [self.history.append(p)] *)
Definition history_append (p : ref) : M World unit :=
  modify (fun w => with_history (history w ++ [p]) w).

(** A sequence of [add_process] calls. *)
Fixpoint add_all (add_process : ref -> M World unit) (ps : list ref) : M World unit :=
  match ps with
  | [] => ret tt
  | p :: ps' => add_process p ;; add_all add_process ps'
  end.

(** ** [src/fcfs_scheduler.py] *)
Module FCFS.

(** [Scheduler.add_process] *)
Definition add_process (p : ref) : M World unit :=
  w <- get ;;
  match running w with
  | None => modify (with_running (Some p))
  | Some _ => modify (with_ready_queue (ready_queue w ++ [p]))
  end.

(** The body of the loop of [execute]. *)
Definition execute_body (r : ref) : M World unit :=
  update_running_process ;;
  history_append r ;;
  try_except
    (p <- ready_queue_pop0 ;; modify (with_running (Some p)))
    is_IndexError
    (modify (with_running None)).

Definition execute_for (fuel : nat) : M World unit :=
  while_running fuel execute_body.

(** [Scheduler.execute].  Every iteration but the last takes a process
    out of [ready_queue], so one more iteration than the queue is long
    is all the loop can use (lemma [fcfs_fuel_irrelevant]). *)
Definition execute : M World unit :=
  fun w => execute_for (S (length (ready_queue w))) w.

(** A fresh scheduler with [ps] admitted in that order. *)
Definition admitted (objs : ref -> Process) (ps : list ref) : World :=
  snd (add_all add_process ps (Scheduler_init objs)).

End FCFS.

(** ** [src/schedulers/sjf_scheduler_non_preemptive.py] *)
Module SJF.

(** [Scheduler.add_process] *)
Definition add_process (p : ref) : M World unit :=
  modify (fun w => with_ready_queue (ready_queue w ++ [p]) w).

(** [Scheduler.setup] *)
Definition setup : M World unit :=
  modify (fun w =>
    with_ready_queue
      (sort_by (fun p => arrival_t (objs w p)) (ready_queue w)) w) ;;
  p <- ready_queue_pop0 ;;
  modify (with_running (Some p)).

(** [list.remove(x)]: drops the first item equal to [x], [ValueError]
    when there is none. *)
Fixpoint list_remove (x : ref) (l : list ref) : outcome (list ref) :=
  match l with
  | [] => Raise ValueError
  | y :: l' =>
      if Nat.eqb y x then Return l'
      else match list_remove x l' with
           | Return l'' => Return (y :: l'')
           | Raise e => Raise e
           | OutOfFuel => OutOfFuel
           end
  end.

(** [Scheduler.set_highest_priority_process] *)
Definition set_highest_priority_process : M World unit :=
  try_except
    (w <- get ;;
     p <- lift (py_min (fun p => burst_t (objs w p))
                  (List.filter (fun p => arrival_t (objs w p) <=? total_t w)
                               (ready_queue w))) ;;
     modify (with_running (Some p)) ;;
     w <- get ;;
     q <- lift (list_remove p (ready_queue w)) ;;
     modify (with_ready_queue q))
    is_ValueError
    (modify (with_running None)).

(** The body of the loop of [execute]. *)
Definition execute_body (r : ref) : M World unit :=
  update_running_process ;;
  history_append r ;;
  set_highest_priority_process.

Definition execute_for (fuel : nat) : M World unit :=
  setup ;; while_running fuel execute_body.

(** [Scheduler.execute].  Every iteration but the last takes a process
    out of [ready_queue], so as many iterations as there are admitted
    processes is all the loop can use (lemma [sjf_fuel_irrelevant]). *)
Definition execute : M World unit :=
  fun w => execute_for (S (length (ready_queue w))) w.

(** A fresh scheduler with [ps] admitted in that order. *)
Definition admitted (objs : ref -> Process) (ps : list ref) : World :=
  snd (add_all add_process ps (Scheduler_init objs)).

End SJF.

(** ** Averages (the same text in both modules)

    Python's [total / len(...)] on integers is true division: its value
    is a [float], an IEEE 754 binary64 number, here a [spec_float] at
    precision 53 and maximal exponent 1024. *)

(** The [for p in self.history] loop of [calc_avg_turnaround_t]. *)
Fixpoint sum_turnaround_t (objs : ref -> Process) (h : list ref)
    (total_turnaround_t : Z) : outcome Z :=
  match h with
  | [] => Return total_turnaround_t
  | p :: h' =>
      match turnaround_t (objs p) with
      | None => Raise (Exceptions.missing_turnaround_time (objs p))
      | Some t => sum_turnaround_t objs h' (total_turnaround_t + t)
      end
  end.

(** The [for p in self.history] loop of [calc_avg_waiting_t]. *)
Fixpoint sum_waiting_t (objs : ref -> Process) (h : list ref)
    (total_waiting_t : Z) : outcome Z :=
  match h with
  | [] => Return total_waiting_t
  | p :: h' =>
      match waiting_t (objs p) with
      | None => Raise (Exceptions.missing_waiting_time (objs p))
      | Some t => sum_waiting_t objs h' (total_waiting_t + t)
      end
  end.

(** An integer as a floating-point number of exponent 0, with all its
    digits: nothing is rounded yet. *)
Definition exact_int (a : Z) : SpecFloat.spec_float :=
  match a with
  | Z0 => SpecFloat.S754_zero false
  | Zpos m => SpecFloat.S754_finite false m 0
  | Zneg m => SpecFloat.S754_finite true m 0
  end.

(** The quotient of the integers [a] and [b], [b] not 0, rounded once
    to the nearest double, ties to even: a signed zero when [a] is 0 or
    the quotient is too small, an infinity when it is beyond the range
    of the doubles. *)
Definition nearest_double (a b : Z) : SpecFloat.spec_float :=
  SpecFloat.SFdiv 53 1024 (exact_int a) (exact_int b).

(** [a / b] on integers: [ZeroDivisionError] when [b] is 0, the double
    nearest to the quotient, and [OverflowError] when there is none. *)
Definition true_div (a b : Z) : outcome SpecFloat.spec_float :=
  if b =? 0 then Raise ZeroDivisionError
  else match nearest_double a b with
       | SpecFloat.S754_infinity _ => Raise OverflowError
       | q => Return q
       end.

(** [Scheduler.calc_avg_turnaround_t] *)
Definition calc_avg_turnaround_t (w : World) : outcome SpecFloat.spec_float :=
  match sum_turnaround_t (objs w) (history w) 0 with
  | Return total => true_div total (Z.of_nat (length (history w)))
  | Raise e => Raise e
  | OutOfFuel => OutOfFuel
  end.

(** [Scheduler.calc_avg_waiting_t] *)
Definition calc_avg_waiting_t (w : World) : outcome SpecFloat.spec_float :=
  match sum_waiting_t (objs w) (history w) 0 with
  | Return total => true_div total (Z.of_nat (length (history w)))
  | Raise e => Raise e
  | OutOfFuel => OutOfFuel
  end.

(** ** Printing (the same text in both modules)

    Standard output is the text printed so far; a printing method takes
    it and gives it back longer.  A [str] is held as its UTF-8 encoding,
    the bytes that [print] writes on a UTF-8 standard output. *)

Definition newline : string := String (Ascii.ascii_of_nat 10) "".

(** The byte continues a character: it is of the form [10xxxxxx]. *)
Definition continuation (c : Ascii.ascii) : bool :=
  match c with
  | Ascii.Ascii _ _ _ _ _ _ b6 b7 => b7 && negb b6
  end.

(** [len(s)]: the number of characters of [s], each one a byte that is
    not a continuation, followed by its continuation bytes. *)
Fixpoint py_len (s : string) : nat :=
  match s with
  | EmptyString => 0%nat
  | String c s' => if continuation c then py_len s' else S (py_len s')
  end.

(** [print(s, end=e)] *)
Definition print (s e : string) (out : string) : string :=
  out +:+ s +:+ e.

(** [s * n] *)
Fixpoint str_mul (s : string) (n : nat) : string :=
  match n with
  | O => ""
  | S n' => s +:+ str_mul s n'
  end.


(** An attribute value of a [Process]: a string, an integer or [None]. *)
Inductive pyval : Type :=
| PyStr (s : string)
| PyInt (z : Z)
| PyNone.

Definition pyval_of_option (o : option Z) : pyval :=
  match o with
  | Some z => PyInt z
  | None => PyNone
  end.

(** [str(v)] *)
Definition py_str (v : pyval) : string :=
  match v with
  | PyStr s => s
  | PyInt z => pretty z
  | PyNone => "None"
  end.

(** [format(v, str(width))], the [{v:{width}}] of an f-string: a string
    is padded on the right, an integer on the left, each up to [width]
    characters, and [None], which accepts no format specification, is a
    [TypeError] ([None] here). *)
Definition format_width (v : pyval) (width : nat) : option string :=
  match v with
  | PyStr s => Some (s +:+ str_mul " " (width - py_len s))
  | PyInt z => Some (str_mul " " (width - py_len (pretty z)) +:+ pretty z)
  | PyNone => None
  end.

(** What a printing method that can fail gives back: the output, and
    whether it stopped on a [TypeError]. *)
Inductive printed : Type :=
| Printed (out : string)
| TypeError (out : string).

(** [Process.print_process_data] *)
Definition print_process_data (self : Process) (out : string) : string :=
  print ("Waiting time    : " +:+ py_str (pyval_of_option (waiting_t self))
         +:+ newline) newline
  (print ("Turnaround time : " +:+ py_str (pyval_of_option (turnaround_t self)))
     newline
  (print ("Completion time : " +:+ py_str (pyval_of_option (completion_t self)))
     newline
  (print ("Burst time      : " +:+ pretty (burst_t self)) newline
  (print ("Arrival time    : " +:+ pretty (arrival_t self)) newline
  (print ("Process id      : " +:+ p_id self) newline out))))).

(** [for _ in range(n): print(s, end='')] *)
Fixpoint print_times (n : nat) (s : string) (out : string) : string :=
  match n with
  | O => out
  | S n' => print_times n' s (print s "" out)
  end.

(** The [for p in self.history] loop of [print_gantt_chart];
    [range(int(p.burst_t))] is empty when the burst time is negative. *)
Fixpoint print_gantt_cells (objs : ref -> Process) (h : list ref)
    (out : string) : string :=
  match h with
  | [] => out
  | p :: h' =>
      print_gantt_cells objs h'
        (print_times (Z.to_nat (burst_t (objs p))) ("|" +:+ p_id (objs p)) out)
  end.

(** [Scheduler.print_gantt_chart] *)
Definition print_gantt_chart (w : World) (out : string) : string :=
  print ("|" +:+ newline) newline
    (print_gantt_cells (objs w) (history w) (print "Gantt chart: " "" out)).

Definition headers : list string :=
  ["PID"; "Arrival Time"; "Burst Time"; "Completion Time"; "Turnaround Time";
   "Waiting Time"].

Definition paddings : list nat := map py_len headers.

Definition separator : string :=
  str_mul "-" (foldr Nat.add 0%nat paddings + 3 * length paddings - 1).


(** [list(vars(p).values())]: the attributes in the order [__init__]
    creates them. *)
Definition details (p : Process) : list pyval :=
  [PyStr (p_id p); PyInt (arrival_t p); PyInt (burst_t p);
   pyval_of_option (completion_t p); pyval_of_option (turnaround_t p);
   pyval_of_option (waiting_t p)].

(** The inner loop of [print_history], over the details of one process
    and the paddings. *)
Fixpoint print_detail_cells (cells : list (pyval * nat)) (out : string) : printed :=
  match cells with
  | [] => Printed out
  | (v, pad) :: rest =>
      match format_width v pad with
      | None => TypeError out
      | Some txt =>
          let out1 := print (" " +:+ txt +:+ " ") "" out in
          print_detail_cells rest
            (match rest with
             | [] => print "" newline out1
             | _ :: _ => print "" "|" out1
             end)
      end
  end.



(** ** The scenarios of the two [__main__] blocks *)

Definition fcfs_main_objs : ref -> Process :=
  fun r =>
    match r with
    | 0%nat => Process_init "P0" 0 5
    | 1%nat => Process_init "P1" 1 3
    | 2%nat => Process_init "P2" 2 8
    | _ => Process_init "P3" 3 6
    end.

Definition fcfs_main : outcome unit * World :=
  FCFS.execute (FCFS.admitted fcfs_main_objs [0; 1; 2; 3]%nat).

(** References 1 to 5 are [p1] to [p5]. *)
Definition sjf_main_objs : ref -> Process :=
  fun r =>
    match r with
    | 1%nat => Process_init "P1" 2 6
    | 2%nat => Process_init "P2" 5 2
    | 3%nat => Process_init "P3" 1 8
    | 4%nat => Process_init "P4" 0 3
    | _ => Process_init "P5" 4 4
    end.

Definition sjf_main : outcome unit * World :=
  SJF.execute (SJF.admitted sjf_main_objs [1; 2; 3; 4; 5]%nat).

(** The ids of the processes in [history], in order. *)
Definition history_ids (w : World) : list string :=
  map (fun r => p_id (objs w r)) (history w).

(** Two processes with a gap between them: [P2] arrives at 5, after [P1]
    has completed at 1. *)
Definition gap_objs : ref -> Process :=
  fun r =>
    match r with
    | 1%nat => Process_init "P1" 0 1
    | _ => Process_init "P2" 5 1
    end.

(** The same object admitted twice, around another one. *)
Definition alias_objs : ref -> Process :=
  fun r =>
    match r with
    | 0%nat => Process_init "P0" 0 1
    | _ => Process_init "P1" 0 1
    end.

(** A process arriving at 5 with burst time 2, alone. *)
Definition late_objs : ref -> Process := fun _ => Process_init "P0" 5 2.

(** An id of one character that is not ASCII: U+00E9, e with an acute
    accent, the bytes 195 and 169. *)
Definition accented_id : string :=
  String (Ascii.ascii_of_nat 195) (String (Ascii.ascii_of_nat 169) "").

(** Two processes arriving at 0, the first with a burst time of
    [10 ** 400], an [int] beyond the range of [float]. *)
Definition huge_objs : ref -> Process :=
  fun r =>
    match r with
    | 0%nat => Process_init "P0" 0 (10 ^ 400)
    | _ => Process_init "P1" 0 1
    end.

(** ** Vocabulary of the statements *)

(** The process [p] once it has run to completion at clock value [t]. *)
Definition finished (t : Z) (p : Process) : Process :=
  mkProcess (p_id p) (arrival_t p) (burst_t p)
            (Some t) (Some (t - arrival_t p)) (Some (t - arrival_t p - burst_t p)).

(** All three timing fields are set and consistent. *)
Definition timings_ok (p : Process) : Prop :=
  exists c t wt,
    completion_t p = Some c /\ turnaround_t p = Some t /\ waiting_t p = Some wt /\
    burst_t p <= c /\ t = c - arrival_t p /\ wt = t - burst_t p.

(** [w'] is [w] after the object behind [r] has been run: the clock has
    advanced by its burst time, the completion-time check has passed, the
    object carries its timings and every other object is untouched. *)
Definition ran (r : ref) (w w' : World) : Prop :=
  total_t w' = total_t w + burst_t (objs w r) /\
  burst_t (objs w r) <= total_t w' /\
  forall x, objs w' x = if decide (x = r) then finished (total_t w') (objs w r)
                        else objs w x.

(** [w'] is [w] at the point where running the object behind [r] was
    refused: only the clock has moved. *)
Definition refused (r : ref) (w w' : World) : Prop :=
  total_t w' = total_t w + burst_t (objs w r) /\
  total_t w' < burst_t (objs w r) /\
  (forall x, objs w' x = objs w x) /\
  running w' = running w /\ ready_queue w' = ready_queue w /\
  history w' = history w.

(** The process has arrived by the clock of [w]. *)
Definition arrived (w : World) (p : ref) : Prop :=
  arrival_t (objs w p) <= total_t w.

(** The outcome of one selection over the queue [q] in world [w]:
    [next] is the new running process and [q'] the new queue. *)
Definition selected (w : World) (q : list ref) (next : option ref)
    (q' : list ref) : Prop :=
  (next = None /\ q' = q /\ forall x, x ∈ q -> ~ arrived w x) \/
  (exists q1 p q2,
      next = Some p /\ q = q1 ++ p :: q2 /\ q' = q1 ++ q2 /\ arrived w p /\
      (forall x, x ∈ q1 -> arrived w x ->
                 burst_t (objs w p) < burst_t (objs w x)) /\
      (forall x, x ∈ q2 -> arrived w x ->
                 burst_t (objs w p) <= burst_t (objs w x))).

(** The completion times along [history]. *)
Definition completions (w : World) : list (option Z) :=
  map (fun r => completion_t (objs w r)) (history w).

(** The processes still to be run: the running one, then the queue. *)
Definition pending (w : World) : list ref :=
  option_list (running w) ++ ready_queue w.

(** The fields fixed at creation agree. *)
Definition same_static (p p' : Process) : Prop :=
  p_id p' = p_id p /\ arrival_t p' = arrival_t p /\ burst_t p' = burst_t p.

(** The iterations of [body] that return stop the loop or shorten the
    queue, and none runs out of fuel. *)
Definition queue_shrinks (body : ref -> M World unit) : Prop :=
  forall w r, running w = Some r ->
    match body r w with
    | (Return _, w') =>
        running w' = None \/
        (length (ready_queue w') < length (ready_queue w))%nat
    | (Raise _, _) => True
    | (OutOfFuel, _) => False
    end.

(** What the loop bodies of the two engines have in common: an iteration
    either runs the running process, appends it to [history] and draws
    the next running process from the queue, or is refused by the
    completion-time check. *)
Definition engine_step (body : ref -> M World unit) : Prop :=
  forall w r, running w = Some r ->
    match body r w with
    | (Return _, w') =>
        ran r w w' /\ history w' = history w ++ [r] /\
        pending w' ≡ₚ ready_queue w
    | (Raise e, w') => e = Exceptions.invalid_completion_time /\ refused r w w'
    | (OutOfFuel, _) => False
    end.

(** The completion times along [history] are all set and never go down,
    and none exceeds the clock. *)
Definition clock_ordered (w : World) : Prop :=
  exists cs, completions w = Some <$> cs /\ StronglySorted Z.le cs /\
             Forall (fun c => c <= total_t w) cs.

(** The outcome [res] of running the lone process behind [r], which was
    [p] at admission: it was started at clock 0 and so completed at its
    burst time, whatever its arrival time. *)
Definition started_at_zero (res : outcome unit * World) (r : ref)
    (p : Process) : Prop :=
  fst res = Return tt /\
  history (snd res) = [r] /\
  completion_t (objs (snd res) r) = Some (burst_t p) /\
  turnaround_t (objs (snd res) r) = Some (burst_t p - arrival_t p) /\
  waiting_t (objs (snd res) r) = Some (- arrival_t p).

(** The sum of a list of integers. *)
Definition sum_Z (ts : list Z) : Z := foldr Z.add 0 ts.

(** In [w'] the process behind [r], which was [store r] at admission,
    has been run as soon as the processes [before] had completed, from
    the clock their burst times add up to and whatever its own arrival
    time: it has completed one burst time later, and has waited from
    its arrival to that clock, a negative time when it arrives later. *)
Definition run_at_once (store : ref -> Process) (w' : World)
    (before : list ref) (r : ref) : Prop :=
  let start := sum_Z (map (fun x => burst_t (store x)) before) in
  completion_t (objs w' r) = Some (start + burst_t (store r)) /\
  turnaround_t (objs w' r) =
    Some (start + burst_t (store r) - arrival_t (store r)) /\
  waiting_t (objs w' r) = Some (start - arrival_t (store r)).

(** What holds of an average [calc] over the field [field], whose
    absence is reported by the exception [missing]:
    - [calc] raises [missing] exactly when some process in [history] has
      the field unset;
    - the process reported is the first such in [history];
    - with every field set, to the values [ts], [calc] raises
      [ZeroDivisionError] on an empty [history]; otherwise it divides
      the sum of [ts] by the length of [history] as [/] does on
      integers: it returns the double nearest to the quotient, and
      raises [OverflowError] when the quotient is beyond the doubles. *)
Definition avg_spec (field : Process -> option Z) (missing : Process -> exn)
    (calc : World -> outcome SpecFloat.spec_float) : Prop :=
  forall w,
    ((exists x, x ∈ history w /\ field (objs w x) = None) <->
     (exists p, calc w = Raise (missing p))) /\
    (forall h1 x h2,
       history w = h1 ++ x :: h2 ->
       Forall (fun y => field (objs w y) <> None) h1 ->
       field (objs w x) = None ->
       calc w = Raise (missing (objs w x))) /\
    (forall ts,
       map (fun x => field (objs w x)) (history w) = Some <$> ts ->
       calc w =
       match history w with
       | [] => Raise ZeroDivisionError
       | _ :: _ =>
           match nearest_double (sum_Z ts) (Z.of_nat (length (history w))) with
           | SpecFloat.S754_infinity _ => Raise OverflowError
           | q => Return q
           end
       end).

(** The burst times along [history]. *)
Definition bursts (w : World) : list Z :=
  map (fun r => burst_t (objs w r)) (history w).

(** The running sums of [l] on top of [acc]. *)
Fixpoint prefix_sums (acc : Z) (l : list Z) : list Z :=
  match l with
  | [] => []
  | x :: l' => (acc + x) :: prefix_sums (acc + x) l'
  end.

(** The waiting time of the process is set and not negative. *)
Definition waited (p : Process) : Prop :=
  exists v, waiting_t p = Some v /\ 0 <= v.

(** Both averages of [w] get as far as their division: every waiting
    and turnaround time along [history] is set, to [ws] and [ts], each
    average is the true division of its sum by the length of [history],
    so that it raises [ZeroDivisionError] exactly when [history] is
    empty, and the turnaround times sum to the waiting times plus the
    burst times. *)
Definition averages_defined (w : World) : Prop :=
  exists ws ts,
    map (fun x => waiting_t (objs w x)) (history w) = Some <$> ws /\
    map (fun x => turnaround_t (objs w x)) (history w) = Some <$> ts /\
    calc_avg_waiting_t w = true_div (sum_Z ws) (Z.of_nat (length (history w))) /\
    calc_avg_turnaround_t w = true_div (sum_Z ts) (Z.of_nat (length (history w))) /\
    (calc_avg_waiting_t w = Raise ZeroDivisionError <-> history w = []) /\
    (calc_avg_turnaround_t w = Raise ZeroDivisionError <-> history w = []) /\
    sum_Z ts = sum_Z ws + sum_Z (bursts w).

(** The cells of the Gantt chart of [w]: each process of [history] as
    many times as its burst time says. *)
Definition gantt_cells (w : World) : list ref :=
  List.concat
    (map (fun p => replicate (Z.to_nat (burst_t (objs w p))) p) (history w)).

(** The cells as [print_gantt_chart] writes them. *)
Definition render_cells (objs : ref -> Process) (cells : list ref) : string :=
  foldr (fun p acc => "|" +:+ p_id (objs p) +:+ acc) "" cells.

(** The width [format_width] gives a cell, in characters: the text is
    never cut. *)
Definition cell_width (cell : pyval * nat) : nat :=
  Nat.max (py_len (py_str (fst cell))) (snd cell).


(** * Proofs *)

(** ** Facts about the built-in list operations *)

Section BuiltinFacts.
Context {A : Type} (key : A -> Z).

Lemma min_from_spec (l : list A) (best : A) :
  (min_from key best l = best /\ forall x, x ∈ l -> key best <= key x) \/
  (exists l1 l2, l = l1 ++ min_from key best l :: l2 /\
      key (min_from key best l) < key best /\
      (forall x, x ∈ l1 -> key (min_from key best l) < key x) /\
      (forall x, x ∈ l2 -> key (min_from key best l) <= key x)).
Proof.
  revert best. induction l as [|a l IH]; intros best; simpl.
  - left. split; [reflexivity|]. intros x Hx. inversion Hx.
  - destruct (Z.ltb_spec (key a) (key best)) as [Hlt|Hge].
    + right. destruct (IH a) as [[Heq Hall]|(l1 & l2 & Hl & Hk & H1 & H2)].
      * exists [], l. rewrite Heq. simpl. repeat split; auto.
        intros x Hx. inversion Hx.
      * exists (a :: l1), l2. repeat split; auto.
        -- simpl. f_equal. exact Hl.
        -- lia.
        -- intros x Hx. apply elem_of_cons in Hx as [->|Hx]; auto.
    + destruct (IH best) as [[Heq Hall]|(l1 & l2 & Hl & Hk & H1 & H2)].
      * left. split; [exact Heq|].
        intros x Hx. apply elem_of_cons in Hx as [->|Hx]; auto.
      * right. exists (a :: l1), l2. repeat split; auto.
        -- simpl. f_equal. exact Hl.
        -- intros x Hx. apply elem_of_cons in Hx as [->|Hx]; auto. lia.
Qed.

(** [min] returns the first item of least key. *)
Lemma py_min_spec (l : list A) :
  match py_min key l with
  | Return m => exists l1 l2, l = l1 ++ m :: l2 /\
                  (forall x, x ∈ l1 -> key m < key x) /\
                  (forall x, x ∈ l2 -> key m <= key x)
  | Raise e => e = ValueError /\ l = []
  | OutOfFuel => False
  end.
Proof.
  destruct l as [|a l]; simpl; [auto|].
  destruct (min_from_spec l a) as [[Heq Hall]|(l1 & l2 & Hl & Hk & H1 & H2)].
  - rewrite Heq. exists [], l. repeat split; auto.
    intros x Hx. inversion Hx.
  - exists (a :: l1), l2. repeat split; auto.
    + simpl. f_equal. exact Hl.
    + intros x Hx. apply elem_of_cons in Hx as [->|Hx]; auto.
Qed.

Lemma filter_split (ok : A -> bool) (q f1 f2 : list A) (m : A) :
  List.filter ok q = f1 ++ m :: f2 ->
  exists q1 q2, q = q1 ++ m :: q2 /\ ok m = true /\
                List.filter ok q1 = f1 /\ List.filter ok q2 = f2.
Proof.
  revert f1. induction q as [|a q IH]; intros f1 Hf; simpl in Hf.
  - destruct f1; discriminate.
  - destruct (ok a) eqn:Ha.
    + destruct f1 as [|b f1]; simpl in Hf; injection Hf as -> Hf.
      * exists [], q. simpl. auto.
      * destruct (IH _ Hf) as (q1 & q2 & -> & Hm & Hq1 & Hq2).
        exists (b :: q1), q2. simpl. rewrite Ha, Hq1. auto.
    + destruct (IH _ Hf) as (q1 & q2 & -> & Hm & Hq1 & Hq2).
      exists (a :: q1), q2. simpl. rewrite Ha. auto.
Qed.

Lemma filter_nil_all (ok : A -> bool) (q : list A) :
  List.filter ok q = [] -> forall x, x ∈ q -> ok x = false.
Proof.
  induction q as [|a q IH]; simpl; intros Hf x Hx.
  - inversion Hx.
  - destruct (ok a) eqn:Ha; [discriminate|].
    apply elem_of_cons in Hx as [->|Hx]; auto.
Qed.

Lemma elem_of_filter_intro (ok : A -> bool) (q : list A) (x : A) :
  x ∈ q -> ok x = true -> x ∈ List.filter ok q.
Proof.
  intros Hx Hok. apply list_elem_of_In, filter_In. split; [|exact Hok].
  apply list_elem_of_In, Hx.
Qed.

Lemma insert_by_perm (x : A) (l : list A) : insert_by key x l ≡ₚ x :: l.
Proof.
  induction l as [|y l IH]; simpl; [reflexivity|].
  destruct (key x <=? key y); [reflexivity|].
  rewrite IH. apply Permutation_swap.
Qed.

(** Sorting rearranges, it neither drops nor duplicates. *)
Lemma sort_by_perm (l : list A) : sort_by key l ≡ₚ l.
Proof.
  induction l as [|x l IH]; simpl; [reflexivity|].
  rewrite insert_by_perm, IH. reflexivity.
Qed.

Lemma sort_by_length (l : list A) : length (sort_by key l) = length l.
Proof. apply Permutation_length, sort_by_perm. Qed.

Lemma insert_by_sorted (x : A) (l : list A) :
  StronglySorted (fun a b => key a <= key b) l ->
  StronglySorted (fun a b => key a <= key b) (insert_by key x l).
Proof.
  induction 1 as [|y l Hl IH Hy]; simpl; [repeat constructor|].
  destruct (Z.leb_spec (key x) (key y)) as [Hle|Hgt].
  - constructor; [constructor; assumption|].
    constructor; [exact Hle|].
    eapply Forall_impl; [exact Hy|]. simpl. intros z Hz. lia.
  - constructor; [exact IH|].
    rewrite insert_by_perm. constructor; [lia|exact Hy].
Qed.

(** The keys of the sorted list ascend. *)
Lemma sort_by_sorted (l : list A) :
  StronglySorted (fun a b => key a <= key b) (sort_by key l).
Proof.
  induction l as [|x l IH]; simpl; [constructor|].
  apply insert_by_sorted, IH.
Qed.

Lemma insert_by_stable (k : Z) (x : A) (l : list A) :
  List.filter (fun a => key a =? k) (insert_by key x l) =
  List.filter (fun a => key a =? k) (x :: l).
Proof.
  induction l as [|y l IH]; simpl; [reflexivity|].
  destruct (Z.leb_spec (key x) (key y)) as [Hle|Hgt]; [reflexivity|].
  simpl. rewrite IH. simpl.
  destruct (Z.eqb_spec (key x) k) as [Hx|_]; [|reflexivity].
  destruct (Z.eqb_spec (key y) k) as [Hy|_]; [lia|reflexivity].
Qed.

(** The sort is stable: items of equal key keep their order. *)
Lemma sort_by_stable (k : Z) (l : list A) :
  List.filter (fun a => key a =? k) (sort_by key l) =
  List.filter (fun a => key a =? k) l.
Proof.
  induction l as [|x l IH]; simpl; [reflexivity|].
  rewrite insert_by_stable. simpl. rewrite IH. reflexivity.
Qed.

(** The head of the sorted list has the least key. *)
Lemma sort_by_head_least (l : list A) (p : A) (q : list A) :
  sort_by key l = p :: q -> forall x, x ∈ l -> key p <= key x.
Proof.
  intros Hs x Hx. pose proof (sort_by_sorted l) as Hsorted.
  rewrite <- (sort_by_perm l), Hs in Hx. rewrite Hs in Hsorted.
  apply StronglySorted_cons in Hsorted as [Hall _].
  apply elem_of_cons in Hx as [->|Hx]; [lia|].
  rewrite Forall_forall in Hall. apply Hall, Hx.
Qed.
End BuiltinFacts.

Lemma list_remove_middle (p : ref) (q1 q2 : list ref) :
  p ∉ q1 -> SJF.list_remove p (q1 ++ p :: q2) = Return (q1 ++ q2).
Proof.
  induction q1 as [|a q1 IH]; intros Hnot; simpl.
  - rewrite Nat.eqb_refl. reflexivity.
  - apply not_elem_of_cons in Hnot as [Hne Hnot].
    destruct (Nat.eqb_spec a p) as [->|_]; [congruence|].
    rewrite (IH Hnot). reflexivity.
Qed.

(** ** One run of the running process *)

Lemma update_running_process_spec (w : World) (r : ref) :
  running w = Some r ->
  match update_running_process w with
  | (Return _, w') =>
      ran r w w' /\ running w' = running w /\
      ready_queue w' = ready_queue w /\ history w' = history w
  | (Raise e, w') => e = Exceptions.invalid_completion_time /\ refused r w w'
  | (OutOfFuel, _) => False
  end.
Proof.
  intros Hr. unfold update_running_process, bind, get. rewrite Hr.
  unfold modify, call, set_completion_t, bind, get. simpl.
  destruct (Z.ltb_spec (total_t w + burst_t (objs w r)) (burst_t (objs w r)))
    as [Hlt|Hge]; simpl.
  - split; [reflexivity|]. unfold refused. simpl. repeat split; auto.
    intros x. unfold insert, fn_insert. destruct (decide (r = x)); congruence.
  - rewrite fn_lookup_insert. unfold set_turnaround_t, bind, get, modify. simpl.
    rewrite fn_lookup_insert. unfold set_waiting_t, bind, get, modify. simpl.
    unfold ran. simpl. repeat split; auto.
    intros x. unfold insert, fn_insert. simpl.
    destruct (decide (x = r)) as [->|Hne].
    + destruct (decide (r = r)); [|congruence]. reflexivity.
    + destruct (decide (r = x)); [congruence|]. reflexivity.
Qed.

(** ** Admission *)

Lemma fcfs_add_all_running (ps : list ref) (w : World) (r : ref) :
  running w = Some r ->
  add_all FCFS.add_process ps w =
  (Return tt, mkWorld (objs w) (Some r) (ready_queue w ++ ps) (history w) (total_t w)).
Proof.
  revert w. induction ps as [|p ps IH]; intros w Hr; simpl.
  - unfold ret. rewrite app_nil_r. destruct w; simpl in *. congruence.
  - unfold bind at 1. unfold FCFS.add_process, bind, get. rewrite Hr.
    unfold modify.
    replace (ready_queue w ++ p :: ps) with ((ready_queue w ++ [p]) ++ ps)
      by (rewrite <- app_assoc; reflexivity).
    exact (IH (with_ready_queue (ready_queue w ++ [p]) w) Hr).
Qed.

(** After admission the first process is running and the others wait in
    admission order. *)
Lemma fcfs_admitted_eq (objs : ref -> Process) (ps : list ref) :
  FCFS.admitted objs ps = mkWorld objs (head ps) (tail ps) [] 0.
Proof.
  unfold FCFS.admitted. destruct ps as [|p ps]; simpl; [reflexivity|].
  unfold bind at 1. unfold FCFS.add_process, bind, get, modify. simpl.
  rewrite (fcfs_add_all_running ps _ p); reflexivity.
Qed.

Lemma sjf_add_all (ps : list ref) (w : World) :
  add_all SJF.add_process ps w =
  (Return tt, mkWorld (objs w) (running w) (ready_queue w ++ ps) (history w) (total_t w)).
Proof.
  revert w. induction ps as [|p ps IH]; intros w; simpl.
  - unfold ret. rewrite app_nil_r. destruct w; reflexivity.
  - unfold bind at 1. unfold SJF.add_process, modify. rewrite IH. simpl.
    rewrite <- app_assoc. reflexivity.
Qed.

(** After admission every process waits in admission order and none is
    running. *)
Lemma sjf_admitted_eq (objs : ref -> Process) (ps : list ref) :
  SJF.admitted objs ps = mkWorld objs None ps [] 0.
Proof. unfold SJF.admitted. rewrite sjf_add_all. reflexivity. Qed.

(** ** The loop bodies *)

Lemma fcfs_body_spec (w : World) (r : ref) :
  running w = Some r ->
  match FCFS.execute_body r w with
  | (Return _, w') =>
      ran r w w' /\ history w' = history w ++ [r] /\
      running w' = head (ready_queue w) /\ ready_queue w' = tail (ready_queue w)
  | (Raise e, w') => e = Exceptions.invalid_completion_time /\ refused r w w'
  | (OutOfFuel, _) => False
  end.
Proof.
  intros Hr. pose proof (update_running_process_spec w r Hr) as Hu.
  unfold FCFS.execute_body. unfold bind at 1.
  destruct (update_running_process w) as [[[]|e|] w1]; [|exact Hu|exact Hu].
  destruct Hu as (Hran & _ & Hq & Hh).
  unfold bind, history_append, modify, try_except, ready_queue_pop0, bind, get,
    lift, modify, ret. simpl. rewrite Hq, Hh.
  destruct (ready_queue w) as [|p q]; simpl; auto.
Qed.

Lemma set_highest_priority_process_spec (w : World) :
  exists next q',
    SJF.set_highest_priority_process w =
      (Return tt, mkWorld (objs w) next q' (history w) (total_t w)) /\
    selected w (ready_queue w) next q'.
Proof.
  unfold SJF.set_highest_priority_process, try_except.
  unfold bind at 1. unfold get. unfold bind at 1. unfold lift at 1.
  set (key := fun p => burst_t (objs w p)).
  set (ok := fun p => arrival_t (objs w p) <=? total_t w).
  pose proof (py_min_spec key (List.filter ok (ready_queue w))) as Hmin.
  destruct (py_min key (List.filter ok (ready_queue w))) as [m|e|];
    [| |contradiction].
  - destruct Hmin as (f1 & f2 & Hf & Hlt & Hle).
    destruct (filter_split ok _ _ _ _ Hf) as (q1 & q2 & Hq & Hm & Hf1 & Hf2).
    assert (Hnot : m ∉ q1).
    { intros Hin. apply (elem_of_filter_intro ok) in Hin; [|exact Hm].
      rewrite Hf1 in Hin. specialize (Hlt _ Hin). lia. }
    unfold bind, modify, get, lift. simpl. rewrite Hq.
    rewrite (list_remove_middle m q1 q2 Hnot). simpl.
    exists (Some m), (q1 ++ q2). split; [reflexivity|].
    right. exists q1, m, q2. unfold arrived. repeat split; auto.
    + apply Z.leb_le. exact Hm.
    + intros x Hx Hax. apply Hlt. rewrite <- Hf1.
      apply elem_of_filter_intro; [exact Hx|]. apply Z.leb_le. exact Hax.
    + intros x Hx Hax. apply Hle. rewrite <- Hf2.
      apply elem_of_filter_intro; [exact Hx|]. apply Z.leb_le. exact Hax.
  - destruct Hmin as [-> Hnil]. simpl. unfold modify. simpl.
    exists None, (ready_queue w). split; [reflexivity|].
    left. repeat split; auto. intros x Hx Hax.
    pose proof (filter_nil_all ok _ Hnil x Hx) as Hfalse.
    apply Z.leb_le in Hax. unfold ok in Hfalse. congruence.
Qed.

Lemma sjf_body_spec (w : World) (r : ref) :
  running w = Some r ->
  match SJF.execute_body r w with
  | (Return _, w') =>
      ran r w w' /\ history w' = history w ++ [r] /\
      selected w' (ready_queue w) (running w') (ready_queue w')
  | (Raise e, w') => e = Exceptions.invalid_completion_time /\ refused r w w'
  | (OutOfFuel, _) => False
  end.
Proof.
  intros Hr. pose proof (update_running_process_spec w r Hr) as Hu.
  unfold SJF.execute_body. unfold bind at 1.
  destruct (update_running_process w) as [[[]|e|] w1]; [|exact Hu|exact Hu].
  destruct Hu as (Hran & _ & Hq & Hh).
  unfold bind at 1. unfold history_append, modify.
  destruct (set_highest_priority_process_spec
              (with_history (history w1 ++ [r]) w1)) as (next & q' & -> & Hsel).
  simpl in *. rewrite Hh, <- Hq. repeat split; auto; apply Hran.
Qed.

Lemma setup_spec (w : World) :
  match SJF.setup w with
  | (Return _, w') =>
      exists p q,
        sort_by (fun p => arrival_t (objs w p)) (ready_queue w) = p :: q /\
        w' = mkWorld (objs w) (Some p) q (history w) (total_t w)
  | (Raise e, w') =>
      e = IndexError /\ ready_queue w = [] /\
      w' = mkWorld (objs w) (running w) [] (history w) (total_t w)
  | (OutOfFuel, _) => False
  end.
Proof.
  unfold SJF.setup, bind, modify, ready_queue_pop0, bind, get, lift, modify, ret.
  simpl.
  destruct (sort_by _ (ready_queue w)) as [|p q] eqn:Hs; simpl.
  - repeat split; auto.
    apply (f_equal length) in Hs. rewrite sort_by_length in Hs.
    destruct (ready_queue w); [reflexivity|discriminate].
  - exists p, q. split; reflexivity.
Qed.

(** On a queue that is not empty [setup] returns and makes running a
    process of least arrival time, whatever the clock says. *)
Lemma setup_picks_earliest (w : World) :
  ready_queue w <> [] ->
  exists p q,
    SJF.setup w = (Return tt, mkWorld (objs w) (Some p) q (history w) (total_t w)) /\
    p :: q ≡ₚ ready_queue w /\
    forall x, x ∈ ready_queue w -> arrival_t (objs w p) <= arrival_t (objs w x).
Proof.
  intros Hne. pose proof (setup_spec w) as Hs.
  destruct (SJF.setup w) as [[[]|e|] w1]; [| |contradiction].
  - destruct Hs as (p & q & Hsort & ->). exists p, q. split; [reflexivity|].
    split.
    + rewrite <- Hsort. apply sort_by_perm.
    + exact (sort_by_head_least (fun p => arrival_t (objs w p)) _ _ _ Hsort).
  - destruct Hs as (_ & Hnil & _). contradiction.
Qed.

(** ** Reasoning rules for [while self.running] *)

Section WhileRules.
Variable body : ref -> M World unit.

(** A property of the state that every iteration keeps, however the
    iteration ends, holds when the loop stops, however it stops. *)
Lemma while_running_invariant (I : World -> Prop) :
  (forall w r, running w = Some r -> I w -> I (snd (body r w))) ->
  forall fuel w, I w -> I (snd (while_running fuel body w)).
Proof.
  intros Hbody. induction fuel as [|fuel IH]; intros w Hw; simpl;
    destruct (running w) as [r|] eqn:Hr; simpl; auto.
  unfold bind. specialize (Hbody w r Hr Hw).
  destruct (body r w) as [[[]|e|] w1]; simpl in *; auto.
Qed.

(** Partial correctness: an invariant of the iterations that return. *)
Lemma while_running_partial (I : World -> Prop) :
  (forall w r w', running w = Some r -> I w ->
                  body r w = (Return tt, w') -> I w') ->
  forall fuel w w', I w -> while_running fuel body w = (Return tt, w') ->
                    I w' /\ running w' = None.
Proof.
  intros Hbody. induction fuel as [|fuel IH]; intros w w' Hw; simpl;
    destruct (running w) as [r|] eqn:Hr; simpl; intros Hrun;
    try discriminate; try (injection Hrun as <-; auto).
  unfold bind in Hrun. specialize (Hbody w r).
  destruct (body r w) as [[[]|e|] w1]; try discriminate.
  apply (IH w1); auto.
Qed.

(** Total correctness: when every iteration returns, keeps the
    invariant and either stops the loop or shortens the queue, the loop
    returns within one more iteration than the queue is long. *)
Lemma while_running_total (I : World -> Prop) :
  (forall w r, running w = Some r -> I w ->
     exists w', body r w = (Return tt, w') /\ I w' /\
                (running w' = None \/
                 (length (ready_queue w') < length (ready_queue w))%nat)) ->
  forall fuel w, I w -> (length (ready_queue w) < fuel)%nat ->
    exists w', while_running fuel body w = (Return tt, w') /\ I w' /\
               running w' = None.
Proof.
  intros Hbody. induction fuel as [|fuel IH]; intros w Hw Hlen; [lia|].
  simpl. destruct (running w) as [r|] eqn:Hr; [|eauto].
  destruct (Hbody w r Hr Hw) as (w1 & Hb & Hw1 & Hdec).
  unfold bind. rewrite Hb.
  destruct fuel as [|fuel].
  - destruct Hdec as [Hnone|Hlt]; [|lia].
    simpl. rewrite Hnone. eauto.
  - destruct Hdec as [Hnone|Hlt].
    + simpl. rewrite Hnone. eauto.
    + apply IH; [exact Hw1|lia].
Qed.

(** With fuel beyond the length of the queue the loop gives the same
    answer whatever the fuel, and the answer is never [OutOfFuel]. *)
Lemma while_running_fuel (Hshrink : queue_shrinks body) :
  forall fuel1 fuel2 w,
    (length (ready_queue w) < fuel1)%nat ->
    (length (ready_queue w) < fuel2)%nat ->
    while_running fuel1 body w = while_running fuel2 body w /\
    fst (while_running fuel1 body w) <> OutOfFuel.
Proof.
  induction fuel1 as [|fuel1 IH]; intros fuel2 w H1 H2; [lia|].
  destruct fuel2 as [|fuel2]; [lia|]. simpl.
  destruct (running w) as [r|] eqn:Hr; [|split; [reflexivity|discriminate]].
  unfold bind. specialize (Hshrink w r Hr).
  destruct (body r w) as [[[]|e|] w1];
    [|split; [reflexivity|discriminate]|contradiction].
  destruct Hshrink as [Hnone|Hlt].
  - destruct fuel1, fuel2; simpl; rewrite Hnone;
      (split; [reflexivity|discriminate]).
  - apply IH; lia.
Qed.
End WhileRules.

Lemma fcfs_queue_shrinks : queue_shrinks FCFS.execute_body.
Proof.
  intros w r Hr. pose proof (fcfs_body_spec w r Hr) as Hb.
  destruct (FCFS.execute_body r w) as [[[]|e|] w1]; auto.
  destruct Hb as (_ & _ & Hrun & Hq). rewrite Hrun, Hq.
  destruct (ready_queue w); simpl; [left; reflexivity|right; lia].
Qed.

Lemma sjf_queue_shrinks : queue_shrinks SJF.execute_body.
Proof.
  intros w r Hr. pose proof (sjf_body_spec w r Hr) as Hb.
  destruct (SJF.execute_body r w) as [[[]|e|] w1]; auto.
  destruct Hb as (_ & _ & [(Hn & _)|(q1 & p & q2 & _ & Hq & Hq' & _)]);
    [left; exact Hn|right].
  rewrite Hq, Hq', !length_app. simpl. lia.
Qed.

(** The loop of [FCFS.execute] needs no more fuel than [execute] gives. *)
Lemma fcfs_fuel_irrelevant (fuel : nat) (w : World) :
  (length (ready_queue w) < fuel)%nat ->
  FCFS.execute_for fuel w = FCFS.execute w /\
  fst (FCFS.execute w) <> OutOfFuel.
Proof.
  intros Hlen. unfold FCFS.execute, FCFS.execute_for.
  destruct (while_running_fuel _ fcfs_queue_shrinks
              (S (length (ready_queue w))) fuel w) as [Heq Hne]; auto.
Qed.

(** The loop of [SJF.execute] needs no more fuel than [execute] gives. *)
Lemma sjf_fuel_irrelevant (fuel : nat) (w : World) :
  (length (ready_queue w) < fuel)%nat ->
  SJF.execute_for fuel w = SJF.execute w /\
  fst (SJF.execute w) <> OutOfFuel.
Proof.
  intros Hlen. unfold SJF.execute, SJF.execute_for, bind.
  pose proof (setup_spec w) as Hs.
  destruct (SJF.setup w) as [[[]|e|] w1];
    [|split; [reflexivity|discriminate]|contradiction].
  destruct Hs as (p & q & Hsort & ->).
  assert (Hq : length (ready_queue w) = S (length q)).
  { rewrite <- (sort_by_length (fun p => arrival_t (objs w p))), Hsort.
    reflexivity. }
  destruct (while_running_fuel _ sjf_queue_shrinks
              (S (length (ready_queue w))) fuel
              (mkWorld (objs w) (Some p) q (history w) (total_t w)))
    as [Heq Hne]; simpl; auto; lia.
Qed.

(** ** What one run changes *)

Lemma ran_static (r : ref) (w w' : World) :
  ran r w w' -> forall x, same_static (objs w x) (objs w' x).
Proof.
  intros (_ & _ & Hobjs) x. rewrite Hobjs. unfold same_static.
  destruct (decide (x = r)) as [->|_]; simpl; auto.
Qed.

Lemma ran_timings (r : ref) (w w' : World) :
  ran r w w' -> timings_ok (objs w' r).
Proof.
  intros (_ & Hb & Hobjs). rewrite Hobjs.
  destruct (decide (r = r)); [|congruence].
  exists (total_t w'), (total_t w' - arrival_t (objs w r)),
    (total_t w' - arrival_t (objs w r) - burst_t (objs w r)).
  simpl. repeat split; auto.
Qed.

Lemma ran_other (r : ref) (w w' : World) (x : ref) :
  ran r w w' -> x <> r -> objs w' x = objs w x.
Proof.
  intros (_ & _ & Hobjs) Hne. rewrite Hobjs.
  destruct (decide (x = r)); [contradiction|reflexivity].
Qed.

Lemma ran_history_timings (r : ref) (w w' : World) (h : list ref) :
  ran r w w' ->
  Forall (fun x => timings_ok (objs w x)) h ->
  Forall (fun x => timings_ok (objs w' x)) h.
Proof.
  intros Hran Hall. eapply Forall_impl; [exact Hall|]. simpl. intros x Hx.
  destruct (decide (x = r)) as [->|Hne].
  - exact (ran_timings _ _ _ Hran).
  - rewrite (ran_other _ _ _ _ Hran Hne). exact Hx.
Qed.

Lemma ran_completions (r : ref) (w w' : World) :
  ran r w w' -> r ∉ history w -> history w' = history w ++ [r] ->
  completions w' = completions w ++ [Some (total_t w')].
Proof.
  intros Hran Hnot Hh. unfold completions. rewrite Hh, map_app. simpl.
  f_equal.
  - apply map_ext_in. intros x Hx. rewrite (ran_other _ _ _ _ Hran); auto.
    intros ->. apply Hnot, list_elem_of_In, Hx.
  - destruct Hran as (_ & _ & Hobjs). rewrite Hobjs.
    destruct (decide (r = r)); [reflexivity|congruence].
Qed.

Lemma pending_running (w : World) (r : ref) :
  running w = Some r -> pending w = r :: ready_queue w.
Proof. intros Hr. unfold pending. rewrite Hr. reflexivity. Qed.

Lemma pending_stopped (w : World) :
  running w = None -> pending w = ready_queue w.
Proof. intros Hr. unfold pending. rewrite Hr. reflexivity. Qed.

Lemma refused_pending (r : ref) (w w' : World) :
  refused r w w' -> pending w' = pending w.
Proof.
  intros (_ & _ & _ & Hr & Hq & _). unfold pending. rewrite Hr, Hq. reflexivity.
Qed.

Lemma refused_completions (r : ref) (w w' : World) :
  refused r w w' -> completions w' = completions w.
Proof.
  intros (_ & _ & Hobjs & _ & _ & Hh). unfold completions. rewrite Hh.
  apply map_ext. intros x. rewrite Hobjs. reflexivity.
Qed.

(** ** Both engines step alike *)

Lemma fcfs_engine_step : engine_step FCFS.execute_body.
Proof.
  intros w r Hr. pose proof (fcfs_body_spec w r Hr) as Hb.
  destruct (FCFS.execute_body r w) as [[[]|e|] w']; auto.
  destruct Hb as (Hran & Hh & Hrun & Hq).
  split; [exact Hran|split; [exact Hh|]].
  unfold pending. rewrite Hrun, Hq. destruct (ready_queue w); reflexivity.
Qed.

Lemma sjf_engine_step : engine_step SJF.execute_body.
Proof.
  intros w r Hr. pose proof (sjf_body_spec w r Hr) as Hb.
  destruct (SJF.execute_body r w) as [[[]|e|] w']; auto.
  destruct Hb as (Hran & Hh & Hsel).
  split; [exact Hran|split; [exact Hh|]].
  unfold pending.
  destruct Hsel as [(-> & -> & _)|(q1 & p & q2 & -> & -> & -> & _)]; simpl.
  - reflexivity.
  - apply Permutation_middle.
Qed.

(** ** What the loop of either engine guarantees *)

Section Engine.
Variable body : ref -> M World unit.
Hypothesis Hstep : engine_step body.

Ltac iteration w r Hr :=
  let Hb := fresh "Hb" in
  pose proof (Hstep w r Hr) as Hb;
  destruct (body r w) as [[[]|?|] ?]; simpl;
  [destruct Hb as (?Hran & ?Hh & ?Hp)
  |destruct Hb as (-> & ?Href)
  |contradiction].

(** The loop never touches the identity, arrival time or burst time of
    a process. *)
Lemma engine_static (fuel : nat) (w : World) :
  forall x, same_static (objs w x) (objs (snd (while_running fuel body w)) x).
Proof.
  apply (while_running_invariant body
           (fun w' => forall x, same_static (objs w x) (objs w' x))).
  - intros w0 r Hr Hw0 x. specialize (Hw0 x). iteration w0 r Hr.
    + pose proof (ran_static _ _ _ Hran x) as Hs.
      unfold same_static in *. intuition congruence.
    + destruct Href as (_ & _ & Hobjs & _). rewrite Hobjs. exact Hw0.
  - intros x. unfold same_static. auto.
Qed.

(** Every process in [history] keeps consistent timings, however the
    loop stops. *)
Lemma engine_timings (fuel : nat) (w : World) :
  Forall (fun x => timings_ok (objs w x)) (history w) ->
  let w' := snd (while_running fuel body w) in
  Forall (fun x => timings_ok (objs w' x)) (history w').
Proof.
  apply (while_running_invariant body
           (fun w' => Forall (fun x => timings_ok (objs w' x)) (history w'))).
  intros w0 r Hr Hw0. iteration w0 r Hr.
  - rewrite Hh. apply Forall_app. split.
    + exact (ran_history_timings _ _ _ _ Hran Hw0).
    + constructor; [|constructor]. exact (ran_timings _ _ _ Hran).
  - destruct Href as (_ & _ & Hobjs & _ & _ & Hhist). rewrite Hhist.
    eapply Forall_impl; [exact Hw0|]. simpl. intros x. rewrite Hobjs. auto.
Qed.

(** No admission is lost or invented: what has run and what is still
    to run always add up to the same processes. *)
Lemma engine_accounting (fuel : nat) (w : World) :
  let w' := snd (while_running fuel body w) in
  history w' ++ pending w' ≡ₚ history w ++ pending w.
Proof.
  apply (while_running_invariant body
           (fun w' => history w' ++ pending w' ≡ₚ history w ++ pending w));
    [|reflexivity].
  intros w0 r Hr Hw0. iteration w0 r Hr.
  - rewrite <- Hw0, Hh, Hp, (pending_running _ _ Hr), <- app_assoc.
    reflexivity.
  - rewrite (refused_pending _ _ _ Href).
    destruct Href as (_ & _ & _ & _ & _ & ->). exact Hw0.
Qed.

(** From a clock that is not negative, over burst times that are not
    negative, the loop returns. *)
Lemma engine_returns (fuel : nat) (w : World) :
  0 <= total_t w ->
  (forall x, x ∈ pending w -> 0 <= burst_t (objs w x)) ->
  (length (ready_queue w) < fuel)%nat ->
  exists w', while_running fuel body w = (Return tt, w') /\
             running w' = None /\ total_t w <= total_t w'.
Proof.
  intros Ht Hburst Hfuel.
  destruct (while_running_total body
              (fun w' => total_t w <= total_t w' /\
                         forall x, x ∈ pending w' -> 0 <= burst_t (objs w' x)))
    with (fuel := fuel) (w := w) as (w' & Hrun & (Hle & _) & Hnone);
    [|split; [lia|exact Hburst]|exact Hfuel|eauto].
  intros w0 r Hr (Hle & Hb0).
  assert (Hr0 : 0 <= burst_t (objs w0 r)).
  { apply Hb0. rewrite (pending_running _ _ Hr). left. }
  pose proof (Hstep w0 r Hr) as Hb.
  destruct (body r w0) as [[[]|e|] w1]; [| |contradiction].
  - destruct Hb as (Hran & Hh & Hp). exists w1. split; [reflexivity|].
    pose proof (ran_static _ _ _ Hran) as Hs.
    destruct Hran as (Ht1 & _ & _). repeat split.
    + lia.
    + intros x Hx. destruct (Hs x) as (_ & _ & ->). apply Hb0.
      rewrite (pending_running _ _ Hr). right. rewrite <- Hp. exact Hx.
    + apply Permutation_length in Hp. unfold pending in Hp.
      rewrite length_app in Hp.
      destruct (running w1); simpl in Hp; [right; lia|left; reflexivity].
  - destruct Hb as (_ & Ht1 & Hlt & _). lia.
Qed.

(** Over distinct process objects with burst times that are not
    negative, the completion times along [history] stay in order. *)
Lemma engine_clock_ordered (fuel : nat) (w : World) :
  NoDup (history w ++ pending w) ->
  (forall x, x ∈ pending w -> 0 <= burst_t (objs w x)) ->
  clock_ordered w ->
  clock_ordered (snd (while_running fuel body w)).
Proof.
  intros Hnd Hburst Hord.
  cut (NoDup (history (snd (while_running fuel body w)) ++
              pending (snd (while_running fuel body w))) /\
       (forall x, x ∈ pending (snd (while_running fuel body w)) ->
                  0 <= burst_t (objs (snd (while_running fuel body w)) x)) /\
       clock_ordered (snd (while_running fuel body w))); [tauto|].
  apply (while_running_invariant body
           (fun w' => NoDup (history w' ++ pending w') /\
                      (forall x, x ∈ pending w' -> 0 <= burst_t (objs w' x)) /\
                      clock_ordered w')); [|auto].
  clear Hnd Hburst Hord w.
  intros w r Hr (Hnd & Hburst & (cs & Hcs & Hsorted & Hbound)).
  assert (Hr0 : 0 <= burst_t (objs w r)).
  { apply Hburst. rewrite (pending_running _ _ Hr). left. }
  rewrite (pending_running _ _ Hr) in Hnd, Hburst.
  iteration w r Hr.
  - split; [|split].
    + rewrite Hh, Hp, <- app_assoc. exact Hnd.
    + intros x Hx. destruct (ran_static _ _ _ Hran x) as (_ & _ & ->).
      apply Hburst. right. rewrite <- Hp. exact Hx.
    + assert (Hnot : r ∉ history w).
      { apply NoDup_app in Hnd as (_ & Hdisj & _).
        intros Hin. apply (Hdisj _ Hin). left. }
      exists (cs ++ [total_t w0]).
      rewrite (ran_completions _ _ _ Hran Hnot Hh), Hcs, fmap_app.
      destruct Hran as (Ht & _ & _).
      split; [reflexivity|split].
      * apply StronglySorted_app_2; [|exact Hsorted|repeat constructor].
        intros c1 c2 Hc1 Hc2. apply list_elem_of_singleton in Hc2 as ->.
        rewrite Forall_forall in Hbound. specialize (Hbound _ Hc1). lia.
      * apply Forall_app. split; [|repeat constructor; lia].
        eapply Forall_impl; [exact Hbound|]. simpl. intros c Hc. lia.
  - split; [|split].
    + rewrite (refused_pending _ _ _ Href), (pending_running _ _ Hr).
      destruct Href as (_ & _ & _ & _ & _ & ->). exact Hnd.
    + rewrite (refused_pending _ _ _ Href), (pending_running _ _ Hr).
      destruct Href as (_ & _ & Hobjs & _). intros x Hx. rewrite Hobjs. auto.
    + exists cs. rewrite (refused_completions _ _ _ Href).
      destruct Href as (Ht & _). split; [exact Hcs|split; [exact Hsorted|]].
      eapply Forall_impl; [exact Hbound|]. simpl. intros c Hc. lia.
Qed.
End Engine.

(** ** [execute] as its loop *)

Lemma fcfs_execute_loop (objs : ref -> Process) (ps : list ref) :
  FCFS.execute (FCFS.admitted objs ps) =
  while_running (S (length (tail ps))) FCFS.execute_body
                (mkWorld objs (head ps) (tail ps) [] 0).
Proof. rewrite fcfs_admitted_eq. reflexivity. Qed.

Lemma fcfs_pending_admitted (objs : ref -> Process) (ps : list ref) :
  pending (mkWorld objs (head ps) (tail ps) [] 0) = ps.
Proof. destruct ps; reflexivity. Qed.

(** On an empty queue [setup] lets the [IndexError] of [pop(0)] escape;
    otherwise the loop starts on the head of the sorted queue. *)
Lemma sjf_execute_loop (objs : ref -> Process) (ps : list ref) :
  (ps = [] /\
   SJF.execute (SJF.admitted objs ps) = (Raise IndexError, Scheduler_init objs)) \/
  (exists p q,
     sort_by (fun p => arrival_t (objs p)) ps = p :: q /\
     SJF.execute (SJF.admitted objs ps) =
     while_running (S (length ps)) SJF.execute_body
                   (mkWorld objs (Some p) q [] 0)).
Proof.
  rewrite sjf_admitted_eq. unfold SJF.execute, SJF.execute_for, bind.
  pose proof (setup_spec (mkWorld objs None ps [] 0)) as Hs.
  destruct (SJF.setup (mkWorld objs None ps [] 0)) as [[[]|e|] w1];
    simpl in Hs; [right|left|contradiction].
  - destruct Hs as (p & q & Hsort & ->). exists p, q. auto.
  - destruct Hs as (-> & -> & ->). auto.
Qed.

Lemma sort_by_cons_length {A} (key : A -> Z) (l : list A) (p : A) (q : list A) :
  sort_by key l = p :: q -> length l = S (length q).
Proof.
  intros Hs. rewrite <- (sort_by_length key), Hs. reflexivity.
Qed.

(** ** FCFS keeps the admission order *)

Lemma fcfs_order (fuel : nat) (w : World) :
  let w' := snd (while_running fuel FCFS.execute_body w) in
  history w' ++ pending w' = history w ++ pending w.
Proof.
  apply (while_running_invariant FCFS.execute_body
           (fun w' => history w' ++ pending w' = history w ++ pending w));
    [|reflexivity].
  intros w0 r Hr Hw0. pose proof (fcfs_body_spec w0 r Hr) as Hb.
  destruct (FCFS.execute_body r w0) as [[[]|e|] w1]; simpl;
    [| |contradiction].
  - destruct Hb as (_ & Hh & Hrun & Hq). rewrite <- Hw0.
    unfold pending at 1. rewrite Hh, Hrun, Hq, (pending_running _ _ Hr).
    rewrite <- app_assoc. destruct (ready_queue w0); reflexivity.
  - destruct Hb as (_ & Href). rewrite (refused_pending _ _ _ Href).
    destruct Href as (_ & _ & _ & _ & _ & ->). exact Hw0.
Qed.

Lemma fcfs_stopped (fuel : nat) (w : World) :
  (running w = None -> ready_queue w = []) ->
  let w' := snd (while_running fuel FCFS.execute_body w) in
  running w' = None -> ready_queue w' = [].
Proof.
  apply (while_running_invariant FCFS.execute_body
           (fun w' => running w' = None -> ready_queue w' = [])).
  intros w0 r Hr _. pose proof (fcfs_body_spec w0 r Hr) as Hb.
  destruct (FCFS.execute_body r w0) as [[[]|e|] w1]; simpl;
    [| |contradiction].
  - destruct Hb as (_ & _ & Hrun & Hq). rewrite Hrun, Hq.
    destruct (ready_queue w0); [reflexivity|discriminate].
  - destruct Hb as (_ & _ & _ & _ & Hrun & _). congruence.
Qed.

Lemma while_running_stops (body : ref -> M World unit) (fuel : nat)
    (w : World) :
  fst (while_running fuel body w) = Return tt ->
  running (snd (while_running fuel body w)) = None.
Proof.
  intros Hret.
  destruct (while_running fuel body w) as [o w'] eqn:Hrun. simpl in *. subst o.
  apply (while_running_partial body (fun _ => True)) in Hrun; tauto.
Qed.

(** When [FCFS.execute] returns, [history] is the admission sequence. *)
Lemma fcfs_history_returned (objs : ref -> Process) (ps : list ref) :
  fst (FCFS.execute (FCFS.admitted objs ps)) = Return tt ->
  history (snd (FCFS.execute (FCFS.admitted objs ps))) = ps.
Proof.
  rewrite fcfs_execute_loop. intros Hret.
  pose proof (fcfs_pending_admitted objs ps) as Hp0.
  set (w0 := mkWorld objs (head ps) (tail ps) [] 0) in *.
  assert (Hs0 : running w0 = None -> ready_queue w0 = []).
  { subst w0. destruct ps; simpl; [reflexivity|discriminate]. }
  pose proof (while_running_stops _ _ _ Hret) as Hnone.
  pose proof (fcfs_order (S (length (tail ps))) w0) as Hord.
  pose proof (fcfs_stopped (S (length (tail ps))) w0 Hs0 Hnone) as Hq.
  cbv zeta in Hord.
  rewrite (pending_stopped _ Hnone), Hq, app_nil_r, Hp0 in Hord.
  exact Hord.
Qed.

(** Over burst times that are not negative [FCFS.execute] returns. *)
Lemma fcfs_returns (objs : ref -> Process) (ps : list ref) :
  (forall p, p ∈ ps -> 0 <= burst_t (objs p)) ->
  fst (FCFS.execute (FCFS.admitted objs ps)) = Return tt.
Proof.
  intros Hburst. rewrite fcfs_execute_loop.
  destruct (engine_returns _ fcfs_engine_step (S (length (tail ps)))
              (mkWorld objs (head ps) (tail ps) [] 0))
    as (w' & -> & _); simpl; auto; try lia.
  rewrite fcfs_pending_admitted. exact Hburst.
Qed.

(** Over burst times that are not negative [SJF.execute] returns as soon
    as one process has been admitted. *)
Lemma sjf_returns (objs : ref -> Process) (ps : list ref) :
  ps <> [] ->
  (forall p, p ∈ ps -> 0 <= burst_t (objs p)) ->
  fst (SJF.execute (SJF.admitted objs ps)) = Return tt.
Proof.
  intros Hne Hburst.
  destruct (sjf_execute_loop objs ps) as [[-> _]|(p & q & Hsort & ->)];
    [congruence|].
  destruct (engine_returns _ sjf_engine_step (S (length ps))
              (mkWorld objs (Some p) q [] 0))
    as (w' & -> & _); simpl; auto; try lia.
  - intros x Hx. apply Hburst.
    rewrite <- (sort_by_perm (fun p => arrival_t (objs p)) ps), Hsort.
    exact Hx.
  - rewrite (sort_by_cons_length _ _ _ _ Hsort). lia.
Qed.

(** When the loop of [SJF.execute] returns, no process left in the queue
    has arrived by the final clock. *)
Lemma sjf_leftover (fuel : nat) (w : World) (r : ref) :
  running w = Some r ->
  fst (while_running fuel SJF.execute_body w) = Return tt ->
  let w' := snd (while_running fuel SJF.execute_body w) in
  forall x, x ∈ ready_queue w' -> total_t w' < arrival_t (objs w' x).
Proof.
  intros Hr Hret.
  destruct (while_running fuel SJF.execute_body w) as [o w'] eqn:Hrun.
  simpl in *. subst o.
  apply (while_running_partial SJF.execute_body
           (fun w' => running w' = None ->
                      forall x, x ∈ ready_queue w' -> ~ arrived w' x))
    in Hrun as [Hleft Hnone].
  - intros x Hx. specialize (Hleft Hnone x Hx). unfold arrived in Hleft. lia.
  - clear. intros w r w' Hr _ Hbody Hnone.
    pose proof (sjf_body_spec w r Hr) as Hb. rewrite Hbody in Hb.
    destruct Hb as (_ & _ & [(_ & -> & Hnot)|(q1 & p & q2 & Hsome & _)]).
    + exact Hnot.
    + congruence.
  - congruence.
Qed.

(** ** The statements *)

(** C1. The selection rule of the SJF engine.  In any state,
    [set_highest_priority_process] returns, and either no process of
    [ready_queue] has arrived ([arrival_t <= total_t]) and [running]
    becomes [None] with the queue as it was, or the queue splits around a
    process [p] that has arrived, whose burst time is strictly below that
    of every arrived process in front of it and at most that of every
    arrived process behind it (the first minimum in queue order), and [p]
    becomes [running] and is taken out of the queue at that position. *)
Theorem sjf_selection_rule (w : World) :
  ((forall x, x ∈ ready_queue w -> ~ arrived w x) /\
   SJF.set_highest_priority_process w =
     (Return tt, mkWorld (objs w) None (ready_queue w) (history w) (total_t w)))
  \/
  (exists q1 p q2,
     ready_queue w = q1 ++ p :: q2 /\ arrived w p /\
     (forall x, x ∈ q1 -> arrived w x ->
                burst_t (objs w p) < burst_t (objs w x)) /\
     (forall x, x ∈ q2 -> arrived w x ->
                burst_t (objs w p) <= burst_t (objs w x)) /\
     SJF.set_highest_priority_process w =
       (Return tt,
        mkWorld (objs w) (Some p) (q1 ++ q2) (history w) (total_t w))).
Proof.
  destruct (set_highest_priority_process_spec w) as (next & q' & -> & Hsel).
  destruct Hsel as [(-> & -> & Hnone)|(q1 & p & q2 & -> & Hq & -> & Hp & H1 & H2)].
  - left. auto.
  - right. exists q1, p, q2. auto.
Qed.

(** C2. FCFS runs in admission order.  For every sequence [ps] of
    admitted processes, whatever their arrival times: the history after
    [execute] is a prefix of [ps]; it is [ps] itself when [execute]
    returns; and [execute] returns whenever no burst time is negative. *)
Theorem fcfs_history_is_admission_order (objs : ref -> Process) (ps : list ref) :
  history (snd (FCFS.execute (FCFS.admitted objs ps))) `prefix_of` ps /\
  (fst (FCFS.execute (FCFS.admitted objs ps)) = Return tt ->
   history (snd (FCFS.execute (FCFS.admitted objs ps))) = ps) /\
  ((forall p, p ∈ ps -> 0 <= burst_t (objs p)) ->
   fst (FCFS.execute (FCFS.admitted objs ps)) = Return tt).
Proof.
  split; [|split].
  - rewrite fcfs_execute_loop.
    pose proof (fcfs_order (S (length (tail ps)))
                  (mkWorld objs (head ps) (tail ps) [] 0)) as Hord.
    cbv zeta in Hord. rewrite fcfs_pending_admitted in Hord.
    eexists. symmetry. exact Hord.
  - apply fcfs_history_returned.
  - apply fcfs_returns.
Qed.

Lemma fcfs_history_is_admission_order_witness :
  history (snd (FCFS.execute (FCFS.admitted fcfs_main_objs [0; 1; 2; 3]%nat)))
  = [0; 1; 2; 3]%nat /\
  fst (FCFS.execute (FCFS.admitted fcfs_main_objs [0; 1; 2; 3]%nat)) = Return tt.
Proof.
  destruct (fcfs_history_is_admission_order fcfs_main_objs [0; 1; 2; 3]%nat)
    as (_ & Hhist & Hret).
  split.
  - apply Hhist. reflexivity.
  - apply Hret. intros p Hp.
    repeat (apply elem_of_cons in Hp as [->|Hp]; [simpl; lia|]).
    inversion Hp.
Defined.

(** C3. After [execute], of either engine and however it ended, every
    process in [history] has its three timing fields set, with
    [completion_t >= burst_t], [turnaround_t = completion_t - arrival_t]
    and [waiting_t = turnaround_t - burst_t]. *)
Theorem history_timings_consistent (store : ref -> Process) (ps : list ref) :
  (let w' := snd (FCFS.execute (FCFS.admitted store ps)) in
   Forall (fun p => timings_ok (objs w' p)) (history w')) /\
  (let w' := snd (SJF.execute (SJF.admitted store ps)) in
   Forall (fun p => timings_ok (objs w' p)) (history w')).
Proof.
  split.
  - rewrite fcfs_execute_loop.
    apply (engine_timings _ fcfs_engine_step). constructor.
  - destruct (sjf_execute_loop store ps) as [[_ ->]|(p & q & _ & ->)].
    + constructor.
    + apply (engine_timings _ sjf_engine_step). constructor.
Qed.

(** C4, as stated, fails for the SJF engine: with [P1(0,1)] and
    [P2(5,1)] admitted, [execute] returns with one process in [history]
    out of two. *)
Lemma sjf_history_length_counterexample :
  fst (SJF.execute (SJF.admitted gap_objs [1; 2]%nat)) = Return tt /\
  length (history (snd (SJF.execute (SJF.admitted gap_objs [1; 2]%nat))))
  <> length [1; 2]%nat.
Proof. vm_compute. split; [reflexivity|discriminate]. Qed.

(** C4, amended.  When [FCFS.execute] returns, [history] is as long as
    the admission sequence.  When [SJF.execute] returns, [history] and
    what is left in [ready_queue] together are the admitted processes,
    so their lengths add up to the number admitted, and every process
    left in the queue has an arrival time beyond the final clock. *)
Theorem history_length_after_execute (store : ref -> Process) (ps : list ref) :
  (fst (FCFS.execute (FCFS.admitted store ps)) = Return tt ->
   length (history (snd (FCFS.execute (FCFS.admitted store ps)))) = length ps) /\
  (fst (SJF.execute (SJF.admitted store ps)) = Return tt ->
   let w' := snd (SJF.execute (SJF.admitted store ps)) in
   history w' ++ ready_queue w' ≡ₚ ps /\
   (length (history w') + length (ready_queue w') = length ps)%nat /\
   forall x, x ∈ ready_queue w' -> total_t w' < arrival_t (objs w' x)).
Proof.
  split.
  - intros Hret. rewrite (fcfs_history_returned _ _ Hret). reflexivity.
  - destruct (sjf_execute_loop store ps) as [[_ ->]|(p & q & Hsort & ->)];
      [discriminate|].
    intros Hret. cbv zeta.
    pose proof (while_running_stops _ _ _ Hret) as Hnone.
    pose proof (engine_accounting _ sjf_engine_step (S (length ps))
                  (mkWorld store (Some p) q [] 0)) as Hacc.
    cbv zeta in Hacc. rewrite (pending_stopped _ Hnone) in Hacc.
    assert (Hperm : history (snd (while_running (S (length ps))
                      SJF.execute_body (mkWorld store (Some p) q [] 0))) ++
                    ready_queue (snd (while_running (S (length ps))
                      SJF.execute_body (mkWorld store (Some p) q [] 0))) ≡ₚ ps).
    { rewrite Hacc. change (p :: q ≡ₚ ps). rewrite <- Hsort.
      apply sort_by_perm. }
    split; [exact Hperm|split].
    + rewrite <- length_app. apply Permutation_length, Hperm.
    + apply (sjf_leftover _ _ p); [reflexivity|exact Hret].
Qed.

Lemma history_length_after_execute_witness :
  length (history (snd (FCFS.execute (FCFS.admitted gap_objs [1; 2]%nat))))
  = 2%nat /\
  (length (history (snd (SJF.execute (SJF.admitted gap_objs [1; 2]%nat)))) +
   length (ready_queue (snd (SJF.execute (SJF.admitted gap_objs [1; 2]%nat))))
   = 2)%nat.
Proof.
  destruct (history_length_after_execute gap_objs [1; 2]%nat) as [Hf Hs].
  split.
  - apply Hf. reflexivity.
  - apply Hs. reflexivity.
Defined.

(** C5.  With nothing admitted, [FCFS.execute] returns and leaves the
    scheduler as created, [history] empty.  [SJF.execute] does not
    return: the [pop(0)] of [setup] raises [IndexError] on the empty
    queue and nothing catches it; [history] is empty all the same. *)
Theorem execute_nothing_admitted (store : ref -> Process) :
  FCFS.execute (FCFS.admitted store []) = (Return tt, Scheduler_init store) /\
  SJF.execute (SJF.admitted store []) = (Raise IndexError, Scheduler_init store).
Proof. split; reflexivity. Qed.

(** C6, as stated, fails: the run order of the scenario is not
    P4, P3, P1, P5, P2. *)
Lemma sjf_scenario_counterexample :
  history_ids (snd sjf_main) <> ["P4"; "P3"; "P1"; "P5"; "P2"].
Proof. vm_compute. discriminate. Qed.

(** C6, amended.  Admitting P1(2,6), P2(5,2), P3(1,8), P4(0,3), P5(4,4)
    in that order and calling [execute] returns with the run order
    P4, P1, P2, P5, P3: at clock 3 both P3 and P1 have arrived and P1 is
    the shorter; at clock 9 all of P3, P5, P2 have arrived. *)
Theorem sjf_scenario_run_order :
  fst sjf_main = Return tt /\
  history_ids (snd sjf_main) = ["P4"; "P1"; "P2"; "P5"; "P3"] /\
  completions (snd sjf_main) = [Some 3; Some 9; Some 11; Some 15; Some 23].
Proof. vm_compute. repeat split. Qed.

(** ** Completion times along the history *)

(** One iteration of either engine moves the clock forward by the burst
    time of the process it was given, whether it returns or raises. *)
Lemma engine_clock_step (body : ref -> M World unit) (w : World) (r : ref) :
  engine_step body -> running w = Some r ->
  total_t (snd (body r w)) = total_t w + burst_t (objs w r).
Proof.
  intros Hstep Hr. specialize (Hstep w r Hr).
  destruct (body r w) as [[[]|e|] w1]; simpl; [| |contradiction].
  - destruct Hstep as ((Ht & _) & _). exact Ht.
  - destruct Hstep as (_ & Ht & _). exact Ht.
Qed.

Lemma clock_ordered_init (store : ref -> Process) (next : option ref)
    (q : list ref) :
  clock_ordered (mkWorld store next q [] 0).
Proof. exists []. repeat split; constructor. Qed.

(** C7.  For every sequence of processes with positive burst times,
    run by either engine, the completion times of the processes in
    [history] are all set, are non-decreasing in history order and none
    exceeds the final clock; [FCFS.execute] returns, and so does
    [SJF.execute] when the sequence is not empty.  In any state, one
    iteration of either loop over a process of positive burst time moves
    the clock strictly forward.  A sequence of processes is a sequence
    of distinct objects, [NoDup ps]: each process is admitted once and
    goes through one run. *)
Theorem completion_times_in_order (store : ref -> Process) (ps : list ref) :
  NoDup ps ->
  (forall p, p ∈ ps -> 0 < burst_t (store p)) ->
  clock_ordered (snd (FCFS.execute (FCFS.admitted store ps))) /\
  clock_ordered (snd (SJF.execute (SJF.admitted store ps))) /\
  fst (FCFS.execute (FCFS.admitted store ps)) = Return tt /\
  (ps <> [] -> fst (SJF.execute (SJF.admitted store ps)) = Return tt) /\
  (forall w r, running w = Some r -> 0 < burst_t (objs w r) ->
     total_t w < total_t (snd (FCFS.execute_body r w)) /\
     total_t w < total_t (snd (SJF.execute_body r w))).
Proof.
  intros Hnd Hpos.
  assert (Hburst : forall p, p ∈ ps -> 0 <= burst_t (store p)).
  { intros p Hp. specialize (Hpos p Hp). lia. }
  split; [|split; [|split; [|split]]].
  - rewrite fcfs_execute_loop.
    apply (engine_clock_ordered _ fcfs_engine_step).
    + simpl. rewrite fcfs_pending_admitted. exact Hnd.
    + rewrite fcfs_pending_admitted. exact Hburst.
    + apply clock_ordered_init.
  - destruct (sjf_execute_loop store ps) as [[_ ->]|(p & q & Hsort & ->)].
    + apply clock_ordered_init.
    + assert (Hperm : p :: q ≡ₚ ps).
      { rewrite <- Hsort. apply sort_by_perm. }
      apply (engine_clock_ordered _ sjf_engine_step).
      * change (NoDup (p :: q)). rewrite Hperm. exact Hnd.
      * change (forall x, x ∈ p :: q -> 0 <= burst_t (store x)).
        intros x Hx. apply Hburst. rewrite <- Hperm. exact Hx.
      * apply clock_ordered_init.
  - apply fcfs_returns, Hburst.
  - intros Hne. apply sjf_returns; [exact Hne|exact Hburst].
  - intros w r Hr Hb.
    rewrite (engine_clock_step _ w r fcfs_engine_step Hr).
    rewrite (engine_clock_step _ w r sjf_engine_step Hr). lia.
Qed.

Lemma completion_times_in_order_witness :
  NoDup [0; 1; 2; 3]%nat /\
  clock_ordered (snd (FCFS.execute (FCFS.admitted fcfs_main_objs [0; 1; 2; 3]%nat))) /\
  clock_ordered (snd (SJF.execute (SJF.admitted fcfs_main_objs [0; 1; 2; 3]%nat))).
Proof.
  assert (Hnd : NoDup [0; 1; 2; 3]%nat).
  { apply NoDup_ListNoDup. repeat constructor; simpl; intuition lia. }
  split; [exact Hnd|].
  destruct (completion_times_in_order fcfs_main_objs [0; 1; 2; 3]%nat Hnd)
    as (Hf & Hs & _); [|split; [exact Hf|exact Hs]].
  intros p Hp.
  repeat (apply elem_of_cons in Hp as [->|Hp]; [simpl; lia|]).
  inversion Hp.
Defined.

(** Why the objects above are distinct: the engines keep references and
    copy nothing, so an object admitted a second time, which no process
    is, would have its completion time overwritten by its second run.
    With [p0], [p1], [p0] admitted, all of burst time 1, the completion
    times read along [history] are 3, 2, 3, while the clock went 1, 2,
    3. *)
Lemma same_object_admitted_twice :
  fst (FCFS.execute (FCFS.admitted alias_objs [0; 1; 0]%nat)) = Return tt /\
  completions (snd (FCFS.execute (FCFS.admitted alias_objs [0; 1; 0]%nat)))
  = [Some 3; Some 2; Some 3] /\
  total_t (snd (FCFS.execute (FCFS.admitted alias_objs [0; 1; 0]%nat))) = 3.
Proof. repeat split. Qed.

(** ** [Process.set_completion_t] *)

(** C8.  [set_completion_t t] raises exactly when [t < burst_t], and
    what it raises is [InvalidCompletionTimeError]; the process is then
    as it was, [completion_t] included.  Otherwise it returns and the
    process differs from what it was in [completion_t] only, which is
    [t]. *)
Theorem set_completion_t_spec (t : Z) (p : Process) :
  ((exists e, fst (set_completion_t t p) = Raise e) <-> t < burst_t p) /\
  (t < burst_t p ->
   set_completion_t t p =
     (Raise (InvalidCompletionTimeError
               "completion time is smaller than the burst time"), p)) /\
  (burst_t p <= t ->
   set_completion_t t p =
     (Return tt,
      mkProcess (p_id p) (arrival_t p) (burst_t p)
                (Some t) (turnaround_t p) (waiting_t p))).
Proof.
  unfold set_completion_t, bind, get, raise, modify, with_completion_t.
  destruct (Z.ltb_spec t (burst_t p)) as [Hlt|Hge]; simpl.
  - split; [|split].
    + split; [auto|]. intros _. eexists. reflexivity.
    + reflexivity.
    + lia.
  - split; [|split].
    + split; [|lia]. intros [e He]. discriminate.
    + lia.
    + reflexivity.
Qed.

Lemma set_completion_t_spec_witness :
  set_completion_t 4 (Process_init "P0" 0 5) =
    (Raise (InvalidCompletionTimeError
              "completion time is smaller than the burst time"),
     Process_init "P0" 0 5) /\
  set_completion_t 5 (Process_init "P0" 0 5) =
    (Return tt, mkProcess "P0" 0 5 (Some 5) None None).
Proof.
  split.
  - apply (set_completion_t_spec 4 (Process_init "P0" 0 5)). simpl. lia.
  - apply (set_completion_t_spec 5 (Process_init "P0" 0 5)). simpl. lia.
Defined.

(** ** Averages *)

Section Averages.
Variable field : Process -> option Z.
Variable missing : Process -> exn.
Variable sum : (ref -> Process) -> list ref -> Z -> outcome Z.
Variable calc : World -> outcome SpecFloat.spec_float.

Hypothesis sum_nil : forall os acc, sum os [] acc = Return acc.
Hypothesis sum_cons : forall os p h acc,
  sum os (p :: h) acc =
  match field (os p) with
  | None => Raise (missing (os p))
  | Some t => sum os h (acc + t)
  end.
Hypothesis calc_eq : forall w,
  calc w =
  match sum (objs w) (history w) 0 with
  | Return total => true_div total (Z.of_nat (length (history w)))
  | Raise e => Raise e
  | OutOfFuel => OutOfFuel
  end.
Hypothesis missing_not_zero_division :
  forall p, missing p <> ZeroDivisionError.
Hypothesis missing_not_overflow :
  forall p, missing p <> OverflowError.

Lemma sum_all_set (os : ref -> Process) (h : list ref) (ts : list Z) :
  map (fun x => field (os x)) h = Some <$> ts ->
  forall acc, sum os h acc = Return (acc + sum_Z ts).
Proof.
  revert ts. induction h as [|p h IH]; intros [|t ts] Hts acc;
    try discriminate.
  - rewrite sum_nil. simpl. f_equal. lia.
  - simpl in Hts. injection Hts as Hp Hts.
    rewrite sum_cons, Hp, (IH _ Hts). simpl. f_equal. lia.
Qed.

Lemma sum_first_missing (os : ref -> Process) (h1 h2 : list ref) (x : ref) :
  Forall (fun y => field (os y) <> None) h1 ->
  field (os x) = None ->
  forall acc, sum os (h1 ++ x :: h2) acc = Raise (missing (os x)).
Proof.
  intros Hset Hx. induction Hset as [|y h1 Hy _ IH]; intros acc; simpl.
  - rewrite sum_cons, Hx. reflexivity.
  - rewrite sum_cons. destruct (field (os y)); [apply IH|congruence].
Qed.

Lemma first_missing_or_all_set (os : ref -> Process) (h : list ref) :
  (exists ts, map (fun x => field (os x)) h = Some <$> ts) \/
  (exists h1 x h2, h = h1 ++ x :: h2 /\
                   Forall (fun y => field (os y) <> None) h1 /\
                   field (os x) = None).
Proof.
  induction h as [|p h IH].
  - left. exists []. reflexivity.
  - destruct (field (os p)) as [t|] eqn:Hp.
    + destruct IH as [[ts Hts]|(h1 & x & h2 & -> & Hset & Hx)].
      * left. exists (t :: ts). simpl. rewrite Hp, Hts. reflexivity.
      * right. exists (p :: h1), x, h2. repeat split; auto.
        constructor; [congruence|exact Hset].
    + right. exists [], p, h. repeat split; auto.
Qed.

Lemma true_div_length (total : Z) (h : list ref) :
  true_div total (Z.of_nat (length h)) =
  match h with
  | [] => Raise ZeroDivisionError
  | _ :: _ =>
      match nearest_double total (Z.of_nat (length h)) with
      | SpecFloat.S754_infinity _ => Raise OverflowError
      | q => Return q
      end
  end.
Proof.
  unfold true_div. destruct h as [|p h]; [reflexivity|].
  destruct (Z.eqb_spec (Z.of_nat (length (p :: h))) 0) as [Hz|_];
    [simpl in Hz; lia|reflexivity].
Qed.

Lemma averages_meet_spec : avg_spec field missing calc.
Proof.
  intros w.
  assert (Hfirst : forall h1 x h2,
            history w = h1 ++ x :: h2 ->
            Forall (fun y => field (objs w y) <> None) h1 ->
            field (objs w x) = None ->
            calc w = Raise (missing (objs w x))).
  { intros h1 x h2 Hh Hset Hx.
    rewrite calc_eq, Hh, (sum_first_missing _ _ _ _ Hset Hx). reflexivity. }
  assert (Hall : forall ts,
            map (fun x => field (objs w x)) (history w) = Some <$> ts ->
            calc w =
            match history w with
            | [] => Raise ZeroDivisionError
            | _ :: _ =>
                match nearest_double (sum_Z ts)
                        (Z.of_nat (length (history w))) with
                | SpecFloat.S754_infinity _ => Raise OverflowError
                | q => Return q
                end
            end).
  { intros ts Hts.
    rewrite calc_eq, (sum_all_set _ _ _ Hts), true_div_length. reflexivity. }
  split; [|split; [exact Hfirst|exact Hall]].
  destruct (first_missing_or_all_set (objs w) (history w))
    as [[ts Hts]|(h1 & x & h2 & Hh & Hset & Hx)].
  - split.
    + intros (x & Hin & Hx). exfalso.
      apply (list_elem_of_fmap_2 (fun x => field (objs w x))) in Hin.
      change (field (objs w x) ∈ map (fun x => field (objs w x)) (history w))
        in Hin.
      rewrite Hts, Hx in Hin.
      apply list_elem_of_fmap in Hin as (t & Ht & _). discriminate.
    + intros (p & Hcalc). exfalso. rewrite (Hall _ Hts) in Hcalc.
      destruct (history w).
      * injection Hcalc as Hcalc. symmetry in Hcalc.
        exact (missing_not_zero_division _ Hcalc).
      * destruct (nearest_double _ _); try discriminate.
        injection Hcalc as Hcalc. symmetry in Hcalc.
        exact (missing_not_overflow _ Hcalc).
  - split.
    + intros _. exists (objs w x). exact (Hfirst _ _ _ Hh Hset Hx).
    + intros _. exists x. split; [|exact Hx].
      rewrite Hh. apply elem_of_app. right. left.
Qed.
End Averages.

(** C9, as stated, fails: with every waiting and turnaround time in a
    non-empty [history] set, an average need not return.  After the FCFS
    engine has run [P0(0, 10 ** 400)] and [P1(0, 1)], the waiting times
    are 0 and [10 ** 400], and [total / len(self.history)] raises
    [OverflowError] in both averages. *)
Lemma average_overflow_counterexample :
  fst (FCFS.execute (FCFS.admitted huge_objs [0; 1]%nat)) = Return tt /\
  history (snd (FCFS.execute (FCFS.admitted huge_objs [0; 1]%nat)))
    = [0; 1]%nat /\
  map (fun r => waiting_t
                  (objs (snd (FCFS.execute
                                (FCFS.admitted huge_objs [0; 1]%nat))) r))
      [0; 1]%nat = [Some 0; Some (10 ^ 400)] /\
  calc_avg_waiting_t (snd (FCFS.execute (FCFS.admitted huge_objs [0; 1]%nat)))
    = Raise OverflowError /\
  calc_avg_turnaround_t
    (snd (FCFS.execute (FCFS.admitted huge_objs [0; 1]%nat)))
    = Raise OverflowError.
Proof. vm_compute. repeat split. Qed.

(** C9, amended.  [calc_avg_waiting_t] raises [MissingWaitingTimeError],
    naming the id of the first offending process, exactly when some
    process in [history] has no waiting time; with every waiting time
    set it fails with [ZeroDivisionError] on an empty [history] and
    otherwise evaluates their sum divided by [len(history)] as [/] does
    on integers: it returns the double nearest to the quotient, and
    raises [OverflowError] when the quotient is beyond the doubles.  The
    same holds of [calc_avg_turnaround_t], turnaround times and
    [MissingTurnaroundTimeError]. *)
Theorem averages_spec :
  avg_spec waiting_t
    (fun p => MissingWaitingTimeError
                (String.append "waiting time is missing for " (p_id p)))
    calc_avg_waiting_t /\
  avg_spec turnaround_t
    (fun p => MissingTurnaroundTimeError
                (String.append "turnaround time is missing for " (p_id p)))
    calc_avg_turnaround_t.
Proof.
  split.
  - apply (averages_meet_spec waiting_t _ sum_waiting_t); try reflexivity;
      discriminate.
  - apply (averages_meet_spec turnaround_t _ sum_turnaround_t); try reflexivity;
      discriminate.
Qed.

(** The FCFS scenario: P0(0,5), P1(1,3), P2(2,8), P3(3,6) complete at
    5, 8, 16, 22, with turnaround times 5, 7, 14, 19 and waiting times
    0, 4, 6, 13. *)
Lemma fcfs_main_timings :
  fst fcfs_main = Return tt /\
  history_ids (snd fcfs_main) = ["P0"; "P1"; "P2"; "P3"] /\
  completions (snd fcfs_main) = [Some 5; Some 8; Some 16; Some 22] /\
  map (fun r => turnaround_t (objs (snd fcfs_main) r)) (history (snd fcfs_main))
  = [Some 5; Some 7; Some 14; Some 19] /\
  map (fun r => waiting_t (objs (snd fcfs_main) r)) (history (snd fcfs_main))
  = [Some 0; Some 4; Some 6; Some 13].
Proof. vm_compute. repeat split. Qed.

(** The averages of the FCFS scenario: waiting 23/4 = 5.75, which is
    6473924464345088 * 2^-50, turnaround 45/4 = 11.25, which is
    6333186975989760 * 2^-49. *)
Lemma fcfs_main_averages :
  calc_avg_waiting_t (snd fcfs_main) =
    Return (SpecFloat.S754_finite false 6473924464345088 (-50)) /\
  calc_avg_turnaround_t (snd fcfs_main) =
    Return (SpecFloat.S754_finite false 6333186975989760 (-49)).
Proof. split; reflexivity. Qed.

(** The averages of the SJF scenario: waiting 26/5 and turnaround 49/5,
    neither of them a double; the results are the doubles printed as 5.2
    and 9.8, 5854679515581645 * 2^-50 and 5516909543528858 * 2^-49. *)
Lemma sjf_main_averages :
  calc_avg_waiting_t (snd sjf_main) =
    Return (SpecFloat.S754_finite false 5854679515581645 (-50)) /\
  calc_avg_turnaround_t (snd sjf_main) =
    Return (SpecFloat.S754_finite false 5516909543528858 (-49)).
Proof. split; reflexivity. Qed.

(** ** What the loops account for *)

Lemma sum_Z_app (l1 l2 : list Z) : sum_Z (l1 ++ l2) = sum_Z l1 + sum_Z l2.
Proof.
  unfold sum_Z. induction l1 as [|x l1 IH]; simpl; [reflexivity|].
  rewrite IH. lia.
Qed.

Lemma prefix_sums_snoc (l : list Z) (x acc : Z) :
  prefix_sums acc (l ++ [x]) = prefix_sums acc l ++ [acc + sum_Z l + x].
Proof.
  revert acc. induction l as [|y l IH]; intros acc; simpl.
  - f_equal. unfold sum_Z. simpl. lia.
  - rewrite IH. do 3 f_equal. unfold sum_Z. simpl. lia.
Qed.

Lemma ran_bursts (r : ref) (w w' : World) :
  ran r w w' -> history w' = history w ++ [r] ->
  bursts w' = bursts w ++ [burst_t (objs w r)].
Proof.
  intros Hran Hh. unfold bursts. rewrite Hh, map_app. simpl.
  pose proof (ran_static _ _ _ Hran) as Hs. f_equal.
  - apply map_ext. intros x. apply Hs.
  - f_equal. apply Hs.
Qed.

Lemma bursts_static (w w' : World) :
  (forall x, same_static (objs w x) (objs w' x)) ->
  map (fun r => burst_t (objs w' r)) (history w') =
  map (fun r => burst_t (objs w r)) (history w').
Proof. intros Hs. apply map_ext. intros x. apply Hs. Qed.

Section EngineAccounts.
Variable body : ref -> M World unit.
Hypothesis Hstep : engine_step body.

(** An object that is not in [history] is as it was when the loop
    started, however the loop stops. *)
Lemma engine_untouched (fuel : nat) (w : World) :
  let w' := snd (while_running fuel body w) in
  forall x, x ∉ history w' -> (x ∉ history w) /\ objs w' x = objs w x.
Proof.
  apply (while_running_invariant body
           (fun w' => forall x, x ∉ history w' ->
                                (x ∉ history w) /\ objs w' x = objs w x));
    [|auto].
  intros w0 r Hr Hw0 x. pose proof (Hstep w0 r Hr) as Hb.
  destruct (body r w0) as [[[]|e|] w1]; simpl; [| |contradiction].
  - destruct Hb as (Hran & Hh & _). rewrite Hh. intros Hx.
    apply not_elem_of_app in Hx as [Hx Hne].
    apply not_elem_of_cons in Hne as [Hne _].
    rewrite (ran_other _ _ _ _ Hran Hne). auto.
  - destruct Hb as (_ & _ & _ & Hobjs & _ & _ & Hh). rewrite Hh, Hobjs. auto.
Qed.

(** When the loop returns, the clock has advanced by the burst times of
    the processes it has added to [history]. *)
Lemma engine_clock_total (fuel : nat) (w w' : World) :
  total_t w = sum_Z (bursts w) ->
  while_running fuel body w = (Return tt, w') ->
  total_t w' = sum_Z (bursts w').
Proof.
  intros Hw Hrun.
  apply (while_running_partial body
           (fun w' => total_t w' = sum_Z (bursts w'))) in Hrun as [Hw' _];
    [exact Hw'| |exact Hw].
  clear - Hstep. intros w r w' Hr Hw Hbody.
  pose proof (Hstep w r Hr) as Hb. rewrite Hbody in Hb.
  destruct Hb as (Hran & Hh & _).
  rewrite (ran_bursts _ _ _ Hran Hh), sum_Z_app.
  destruct Hran as (-> & _). rewrite Hw. unfold sum_Z at 3. simpl. lia.
Qed.

(** When the loop returns over distinct objects, each process in
    [history] has completed at the sum of the burst times up to and
    including its own. *)
Lemma engine_prefix_sums (fuel : nat) (w w' : World) :
  NoDup (history w ++ pending w) ->
  total_t w = sum_Z (bursts w) ->
  completions w = Some <$> prefix_sums 0 (bursts w) ->
  while_running fuel body w = (Return tt, w') ->
  completions w' = Some <$> prefix_sums 0 (bursts w').
Proof.
  intros Hnd Ht Hc Hrun.
  apply (while_running_partial body
           (fun w' => NoDup (history w' ++ pending w') /\
                      total_t w' = sum_Z (bursts w') /\
                      completions w' = Some <$> prefix_sums 0 (bursts w')))
    in Hrun as [(_ & _ & Hw') _]; [exact Hw'| |auto].
  clear - Hstep. intros w r w' Hr (Hnd & Ht & Hc) Hbody.
  pose proof (Hstep w r Hr) as Hb. rewrite Hbody in Hb.
  destruct Hb as (Hran & Hh & Hp).
  rewrite (pending_running _ _ Hr) in Hnd.
  assert (Hnot : r ∉ history w).
  { apply NoDup_app in Hnd as (_ & Hdisj & _).
    intros Hin. apply (Hdisj _ Hin). left. }
  rewrite (ran_bursts _ _ _ Hran Hh), (ran_completions _ _ _ Hran Hnot Hh).
  split; [|split].
  - rewrite Hh, Hp, <- app_assoc. exact Hnd.
  - rewrite sum_Z_app. destruct Hran as (-> & _). rewrite Ht.
    unfold sum_Z at 3. simpl. lia.
  - rewrite prefix_sums_snoc, fmap_app, Hc. simpl.
    destruct Hran as (-> & _). rewrite Ht. do 3 f_equal; lia.
Qed.
End EngineAccounts.

Lemma returned_pair {St : Type} (res : outcome unit * St) :
  fst res = Return tt -> res = (Return tt, snd res).
Proof. destruct res as [o s]. simpl. intros ->. reflexivity. Qed.

(** [history] only grows, however the loop stops. *)
Lemma engine_history_grows (body : ref -> M World unit) (fuel : nat)
    (w : World) :
  engine_step body ->
  history w `prefix_of` history (snd (while_running fuel body w)).
Proof.
  intros Hstep.
  apply (while_running_invariant body
           (fun w' => history w `prefix_of` history w')); [|reflexivity].
  intros w0 r Hr Hw0. specialize (Hstep w0 r Hr).
  destruct (body r w0) as [[[]|e|] w1]; simpl; [| |contradiction].
  - destruct Hstep as (_ & -> & _). apply prefix_app_r. exact Hw0.
  - destruct Hstep as (_ & _ & _ & _ & _ & _ & ->). exact Hw0.
Qed.

(** ** No waiting for the arrival time *)

(** A lone process is run at once by either loop, from clock 0. *)
Lemma engine_single (body : ref -> M World unit) (store : ref -> Process)
    (r : ref) (fuel : nat) :
  engine_step body ->
  exists w',
    while_running (S fuel) body (mkWorld store (Some r) [] [] 0) = (Return tt, w') /\
    history w' = [r] /\
    objs w' r = finished (burst_t (store r)) (store r).
Proof.
  intros Hstep. simpl. unfold bind.
  specialize (Hstep (mkWorld store (Some r) [] [] 0) r eq_refl).
  destruct (body r _) as [[[]|e|] w1]; [| |contradiction].
  - destruct Hstep as ((Ht & _ & Hobjs) & Hh & Hp). simpl in *.
    apply Permutation_nil_r in Hp. unfold pending in Hp.
    destruct (running w1) eqn:Hr; [discriminate|].
    exists w1. split; [|split; [exact Hh|]].
    + destruct fuel; simpl; rewrite Hr; reflexivity.
    + rewrite Hobjs, Ht. destruct (decide (r = r)); [reflexivity|congruence].
  - destruct Hstep as (_ & Ht & Hlt & _). simpl in *. lia.
Qed.

Lemma finished_started_at_zero (o : outcome unit) (w' : World) (r : ref)
    (p : Process) :
  o = Return tt -> history w' = [r] -> objs w' r = finished (burst_t p) p ->
  started_at_zero (o, w') r p.
Proof.
  intros -> Hh Hobjs. unfold started_at_zero. simpl. rewrite Hobjs. simpl.
  repeat split; auto. f_equal. lia.
Qed.

(** A lone process is started at clock 0 by either engine. *)
Lemma lone_process_started_at_zero (store : ref -> Process) (r : ref) :
  started_at_zero (FCFS.execute (FCFS.admitted store [r])) r (store r) /\
  started_at_zero (SJF.execute (SJF.admitted store [r])) r (store r).
Proof.
  split.
  - rewrite fcfs_execute_loop.
    destruct (engine_single FCFS.execute_body store r 0 fcfs_engine_step)
      as (w' & Hrun & Hh & Hobjs).
    change (started_at_zero
              (while_running 1 FCFS.execute_body (mkWorld store (Some r) [] [] 0))
              r (store r)).
    rewrite Hrun. apply finished_started_at_zero; auto.
  - destruct (sjf_execute_loop store [r]) as [[Hnil _]|(p & q & Hsort & ->)];
      [discriminate|].
    simpl in Hsort. injection Hsort as <- <-.
    destruct (engine_single SJF.execute_body store r 1 sjf_engine_step)
      as (w' & Hrun & Hh & Hobjs).
    change (started_at_zero
              (while_running 2 SJF.execute_body (mkWorld store (Some r) [] [] 0))
              r (store r)).
    rewrite Hrun. apply finished_started_at_zero; auto.
Qed.

Lemma prefix_sums_lookup (l : list Z) (acc : Z) (i : nat) (x : Z) :
  l !! i = Some x ->
  prefix_sums acc l !! i = Some (acc + sum_Z (take i l) + x).
Proof.
  revert acc i. induction l as [|y l IH]; intros acc [|i] Hl;
    try discriminate.
  - injection Hl as ->. simpl. unfold sum_Z. simpl. f_equal. lia.
  - simpl in Hl. simpl. rewrite (IH _ _ Hl). unfold sum_Z. simpl.
    f_equal. lia.
Qed.

(** When the loop of either engine, started at clock 0 on an empty
    [history] and over distinct objects, returns, each process in
    [history] has been run as soon as those before it had completed. *)
Lemma engine_run_at_once (body : ref -> M World unit) (store : ref -> Process)
    (next : option ref) (q : list ref) (fuel : nat) (w' : World) :
  engine_step body ->
  NoDup (option_list next ++ q) ->
  while_running fuel body (mkWorld store next q [] 0) = (Return tt, w') ->
  forall i r, history w' !! i = Some r ->
              run_at_once store w' (take i (history w')) r.
Proof.
  intros Hstep Hnd Hrun i r Hi.
  pose proof (engine_prefix_sums _ Hstep fuel (mkWorld store next q [] 0) w'
                Hnd eq_refl eq_refl Hrun) as Hc.
  pose proof (engine_static _ Hstep fuel (mkWorld store next q [] 0)) as Hs.
  pose proof (engine_timings _ Hstep fuel (mkWorld store next q [] 0)
                (Forall_nil_2 _)) as Hok.
  cbv zeta in Hok. rewrite Hrun in Hs, Hok. simpl in Hs, Hok.
  assert (Hb : bursts w' = (fun x => burst_t (store x)) <$> history w').
  { apply map_ext. intros x. apply Hs. }
  assert (Hbi : bursts w' !! i = Some (burst_t (store r))).
  { rewrite Hb, list_lookup_fmap, Hi. reflexivity. }
  apply (f_equal (fun l => l !! i)) in Hc.
  change (completions w') with
    ((fun x => completion_t (objs w' x)) <$> history w') in Hc.
  rewrite !list_lookup_fmap, Hi, (prefix_sums_lookup _ _ _ _ Hbi) in Hc.
  simpl in Hc. injection Hc as Hc.
  rewrite Hb, <- fmap_take in Hc.
  destruct (Forall_lookup_1 _ _ _ _ Hok Hi)
    as (c & t & wt & Hc' & Ht & Hw & _ & -> & ->).
  destruct (Hs r) as (_ & Harr & Hburst).
  rewrite Hc in Hc'. injection Hc' as <-.
  unfold run_at_once. cbv zeta. rewrite Hc, Ht, Hw, Harr, Hburst.
  change ((fun x => burst_t (store x)) <$> take i (history w')) with
    (map (fun x => burst_t (store x)) (take i (history w'))).
  repeat split; f_equal; lia.
Qed.

(** C10.  Neither engine waits for a process to arrive.  When
    [FCFS.execute] returns over distinct processes, [history] is the
    admission sequence and every process has been run as soon as those
    admitted before it had completed, at the clock their burst times
    add up to and whatever its arrival time: its waiting time is that
    clock minus its arrival time.  When [SJF.execute] returns, the same
    holds along its [history], which starts with a process of least
    arrival time, run from clock 0.  Over burst times that are not
    negative both return.  [SJF.setup], on any queue that is not empty
    and whatever the clock, makes running a process of least arrival
    time.  So a single admitted process is run from clock 0 by either
    engine: its waiting time is minus its arrival time, negative as soon
    as the arrival time is positive, and its turnaround time is negative
    when it arrives later than its burst time. *)
Theorem engines_do_not_wait_for_arrival (store : ref -> Process)
    (ps : list ref) :
  NoDup ps ->
  (fst (FCFS.execute (FCFS.admitted store ps)) = Return tt ->
   let w' := snd (FCFS.execute (FCFS.admitted store ps)) in
   history w' = ps /\
   forall i r, ps !! i = Some r -> run_at_once store w' (take i ps) r) /\
  (fst (SJF.execute (SJF.admitted store ps)) = Return tt ->
   let w' := snd (SJF.execute (SJF.admitted store ps)) in
   (exists p rest,
      history w' = p :: rest /\ p ∈ ps /\
      forall x, x ∈ ps -> arrival_t (store p) <= arrival_t (store x)) /\
   forall i r, history w' !! i = Some r ->
               run_at_once store w' (take i (history w')) r) /\
  ((forall p, p ∈ ps -> 0 <= burst_t (store p)) ->
   fst (FCFS.execute (FCFS.admitted store ps)) = Return tt /\
   (ps <> [] -> fst (SJF.execute (SJF.admitted store ps)) = Return tt)) /\
  (forall w, ready_queue w <> [] ->
     exists p q,
       SJF.setup w =
         (Return tt, mkWorld (objs w) (Some p) q (history w) (total_t w)) /\
       p :: q ≡ₚ ready_queue w /\
       forall x, x ∈ ready_queue w ->
                 arrival_t (objs w p) <= arrival_t (objs w x)) /\
  (forall r, 0 < arrival_t (store r) ->
     started_at_zero (FCFS.execute (FCFS.admitted store [r])) r (store r) /\
     started_at_zero (SJF.execute (SJF.admitted store [r])) r (store r) /\
     - arrival_t (store r) < 0 /\
     (burst_t (store r) < arrival_t (store r) ->
      burst_t (store r) - arrival_t (store r) < 0)).
Proof.
  intros Hnd.
  split; [|split; [|split; [|split; [exact setup_picks_earliest|]]]].
  - intros Hret. pose proof (fcfs_history_returned _ _ Hret) as Hh.
    cbv zeta. split; [exact Hh|].
    revert Hret Hh. rewrite fcfs_execute_loop. intros Hret Hh.
    apply returned_pair in Hret.
    set (w' := snd (while_running (S (length (tail ps))) FCFS.execute_body
                      (mkWorld store (head ps) (tail ps) [] 0))) in *.
    assert (Hnd0 : NoDup (option_list (head ps) ++ tail ps)).
    { destruct ps; exact Hnd. }
    pose proof (engine_run_at_once _ _ _ _ _ _ fcfs_engine_step Hnd0 Hret)
      as Hrun.
    rewrite Hh in Hrun. exact Hrun.
  - destruct (sjf_execute_loop store ps) as [[_ ->]|(p & q & Hsort & ->)];
      [discriminate|].
    intros Hret. cbv zeta. apply returned_pair in Hret.
    set (w' := snd (while_running (S (length ps)) SJF.execute_body
                      (mkWorld store (Some p) q [] 0))) in *.
    assert (Hperm : p :: q ≡ₚ ps).
    { rewrite <- Hsort. apply sort_by_perm. }
    split.
    + assert (Hhead : exists rest, history w' = p :: rest).
      { revert Hret. subst w'. simpl. unfold bind.
        pose proof (sjf_engine_step (mkWorld store (Some p) q [] 0) p eq_refl)
          as Hb.
        destruct (SJF.execute_body p _) as [[[]|e|] w1];
          [|discriminate|contradiction].
        destruct Hb as (_ & Hh & _). simpl in Hh. intros _.
        destruct (engine_history_grows SJF.execute_body (length ps) w1
                    sjf_engine_step) as [k Hk].
        exists k. rewrite Hk, Hh. reflexivity. }
      destruct Hhead as (rest & Hrest). exists p, rest.
      split; [exact Hrest|]. split.
      * rewrite <- Hperm. left.
      * exact (sort_by_head_least (fun x => arrival_t (store x)) _ _ _ Hsort).
    + assert (Hnd0 : NoDup (option_list (Some p) ++ q)).
      { change (NoDup (p :: q)). rewrite Hperm. exact Hnd. }
      exact (engine_run_at_once _ _ _ _ _ _ sjf_engine_step Hnd0 Hret).
  - intros Hburst. split; [apply fcfs_returns, Hburst|].
    intros Hne. apply sjf_returns; [exact Hne|exact Hburst].
  - intros r Harr.
    destruct (lone_process_started_at_zero store r) as [Hf Hs].
    split; [exact Hf|]. split; [exact Hs|]. split; lia.
Qed.

Lemma engines_do_not_wait_for_arrival_witness :
  NoDup [1; 2]%nat /\
  fst (FCFS.execute (FCFS.admitted gap_objs [1; 2]%nat)) = Return tt /\
  completion_t
    (objs (snd (FCFS.execute (FCFS.admitted gap_objs [1; 2]%nat))) 2%nat)
  = Some 2 /\
  turnaround_t
    (objs (snd (FCFS.execute (FCFS.admitted gap_objs [1; 2]%nat))) 2%nat)
  = Some (-3) /\
  waiting_t
    (objs (snd (FCFS.execute (FCFS.admitted gap_objs [1; 2]%nat))) 2%nat)
  = Some (-4) /\
  waiting_t (objs (snd (SJF.execute (SJF.admitted late_objs [0%nat]))) 0%nat)
  = Some (-5) /\
  turnaround_t (objs (snd (SJF.execute (SJF.admitted late_objs [0%nat]))) 0%nat)
  = Some (-3).
Proof.
  assert (Hnd : NoDup [1; 2]%nat).
  { apply NoDup_ListNoDup. repeat constructor; simpl; intuition lia. }
  assert (Hret : fst (FCFS.execute (FCFS.admitted gap_objs [1; 2]%nat))
                 = Return tt) by reflexivity.
  split; [exact Hnd|]. split; [exact Hret|].
  destruct (engines_do_not_wait_for_arrival gap_objs [1; 2]%nat Hnd)
    as (Hfcfs & _).
  destruct (Hfcfs Hret) as (_ & Hrun).
  destruct (Hrun 1%nat 2%nat eq_refl) as (Hc & Ht & Hw).
  split; [exact Hc|]. split; [exact Ht|]. split; [exact Hw|].
  assert (Hnd1 : NoDup [0%nat]).
  { apply NoDup_ListNoDup. repeat constructor; simpl; intuition lia. }
  destruct (engines_do_not_wait_for_arrival late_objs [0%nat] Hnd1)
    as (_ & _ & _ & _ & Hlone).
  assert (Harr : 0 < arrival_t (late_objs 0%nat)) by (simpl; lia).
  destruct (Hlone 0%nat Harr) as (_ & (_ & _ & _ & Hts & Hws) & _).
  split; [exact Hws|exact Hts].
Defined.

(** * Further properties of the code *)

(** ** What [execute] accounts for *)

(** X5.  [execute] leaves the identity, arrival time and burst time of every
    object alone, and an object that is not in [history] afterwards (a
    process never admitted, one the SJF engine has left in its queue, one
    not reached before an exception) is exactly as it was.  This holds
    for both engines and however [execute] ends. *)
Theorem execute_touches_only_history (store : ref -> Process) (ps : list ref) :
  (let w' := snd (FCFS.execute (FCFS.admitted store ps)) in
   forall x, same_static (store x) (objs w' x) /\
             (x ∉ history w' -> objs w' x = store x)) /\
  (let w' := snd (SJF.execute (SJF.admitted store ps)) in
   forall x, same_static (store x) (objs w' x) /\
             (x ∉ history w' -> objs w' x = store x)).
Proof.
  split.
  - rewrite fcfs_execute_loop. intros w' x. split.
    + apply (engine_static _ fcfs_engine_step).
    + intros Hx. apply (engine_untouched _ fcfs_engine_step) in Hx as [_ Hx].
      exact Hx.
  - destruct (sjf_execute_loop store ps) as [[_ ->]|(p & q & _ & ->)];
      intros w' x.
    + split; [unfold same_static; auto|reflexivity].
    + split.
      * apply (engine_static _ sjf_engine_step).
      * intros Hx. apply (engine_untouched _ sjf_engine_step) in Hx as [_ Hx].
        exact Hx.
Qed.

(** X6.  When [execute] returns, the clock reads the sum of the burst times
    of the processes in [history]; for the FCFS engine that is the sum of
    the burst times of everything admitted. *)
Theorem clock_is_total_burst (store : ref -> Process) (ps : list ref) :
  (fst (FCFS.execute (FCFS.admitted store ps)) = Return tt ->
   total_t (snd (FCFS.execute (FCFS.admitted store ps))) =
   sum_Z (map (fun r => burst_t (store r)) ps)) /\
  (fst (SJF.execute (SJF.admitted store ps)) = Return tt ->
   let w' := snd (SJF.execute (SJF.admitted store ps)) in
   total_t w' = sum_Z (map (fun r => burst_t (store r)) (history w'))).
Proof.
  split.
  - intros Hret. rewrite <- (fcfs_history_returned _ _ Hret) at 2.
    revert Hret. rewrite fcfs_execute_loop. intros Hret.
    apply returned_pair in Hret.
    rewrite (engine_clock_total _ fcfs_engine_step _
               (mkWorld store (head ps) (tail ps) [] 0) _ eq_refl Hret).
    unfold bursts. f_equal.
    exact (bursts_static (mkWorld store (head ps) (tail ps) [] 0) _
             (engine_static _ fcfs_engine_step _ _)).
  - destruct (sjf_execute_loop store ps) as [[_ ->]|(p & q & _ & ->)];
      [discriminate|].
    intros Hret. cbv zeta. apply returned_pair in Hret.
    rewrite (engine_clock_total _ sjf_engine_step _
               (mkWorld store (Some p) q [] 0) _ eq_refl Hret).
    unfold bursts. f_equal.
    exact (bursts_static (mkWorld store (Some p) q [] 0) _
             (engine_static _ sjf_engine_step _ _)).
Qed.

Lemma clock_is_total_burst_witness :
  total_t (snd (FCFS.execute (FCFS.admitted fcfs_main_objs [0; 1; 2; 3]%nat))) =
  sum_Z (map (fun r => burst_t (fcfs_main_objs r)) [0; 1; 2; 3]%nat) /\
  total_t (snd (SJF.execute (SJF.admitted sjf_main_objs [1; 2; 3; 4; 5]%nat))) =
  sum_Z (map (fun r => burst_t (sjf_main_objs r))
           (history (snd (SJF.execute (SJF.admitted sjf_main_objs
                                         [1; 2; 3; 4; 5]%nat))))).
Proof.
  split.
  - apply (clock_is_total_burst fcfs_main_objs [0; 1; 2; 3]%nat). reflexivity.
  - apply (clock_is_total_burst sjf_main_objs [1; 2; 3; 4; 5]%nat). reflexivity.
Defined.

(** X7.  When [execute] returns over pairwise distinct process objects, the
    completion time of each process in [history] is the sum of the burst
    times of the processes up to and including it: in admission order
    for the FCFS engine, in run order for the SJF engine. *)
Theorem completions_are_prefix_sums (store : ref -> Process) (ps : list ref) :
  NoDup ps ->
  (fst (FCFS.execute (FCFS.admitted store ps)) = Return tt ->
   completions (snd (FCFS.execute (FCFS.admitted store ps))) =
   Some <$> prefix_sums 0 (map (fun r => burst_t (store r)) ps)) /\
  (fst (SJF.execute (SJF.admitted store ps)) = Return tt ->
   let w' := snd (SJF.execute (SJF.admitted store ps)) in
   completions w' =
   Some <$> prefix_sums 0 (map (fun r => burst_t (store r)) (history w'))).
Proof.
  intros Hnd. split.
  - intros Hret. rewrite <- (fcfs_history_returned _ _ Hret) at 2.
    revert Hret. rewrite fcfs_execute_loop. intros Hret.
    apply returned_pair in Hret.
    assert (Hnd0 : NoDup (history (mkWorld store (head ps) (tail ps) [] 0) ++
                          pending (mkWorld store (head ps) (tail ps) [] 0))).
    { simpl. rewrite fcfs_pending_admitted. exact Hnd. }
    rewrite (engine_prefix_sums _ fcfs_engine_step _ _ _
               Hnd0 eq_refl eq_refl Hret).
    unfold bursts. do 2 f_equal.
    exact (bursts_static (mkWorld store (head ps) (tail ps) [] 0) _
             (engine_static _ fcfs_engine_step _ _)).
  - destruct (sjf_execute_loop store ps) as [[_ ->]|(p & q & Hsort & ->)];
      [discriminate|].
    intros Hret. cbv zeta. apply returned_pair in Hret.
    assert (Hnd0 : NoDup (history (mkWorld store (Some p) q [] 0) ++
                          pending (mkWorld store (Some p) q [] 0))).
    { change (NoDup (p :: q)). rewrite <- Hsort, sort_by_perm. exact Hnd. }
    rewrite (engine_prefix_sums _ sjf_engine_step _ _ _
               Hnd0 eq_refl eq_refl Hret).
    unfold bursts. do 2 f_equal.
    exact (bursts_static (mkWorld store (Some p) q [] 0) _
             (engine_static _ sjf_engine_step _ _)).
Qed.

Lemma completions_are_prefix_sums_witness :
  NoDup [0; 1; 2; 3]%nat /\
  completions (snd (FCFS.execute (FCFS.admitted fcfs_main_objs [0; 1; 2; 3]%nat)))
  = [Some 5; Some 8; Some 16; Some 22].
Proof.
  assert (Hnd : NoDup [0; 1; 2; 3]%nat).
  { apply NoDup_ListNoDup. repeat constructor; simpl; intuition lia. }
  split; [exact Hnd|].
  apply (completions_are_prefix_sums fcfs_main_objs [0; 1; 2; 3]%nat Hnd).
  reflexivity.
Defined.

(** ** The SJF engine and arrival times *)

Lemma finished_waited (t : Z) (p : Process) :
  arrival_t p + burst_t p <= t -> waited (finished t p).
Proof.
  intros Hle. exists (t - arrival_t p - burst_t p). simpl. split; [reflexivity|lia].
Qed.

(** When the loop of [SJF.execute] returns, every process it has added
    to [history] but the one that was running when the loop started has
    been picked by the selection rule, hence after its arrival. *)
Lemma sjf_gating (fuel : nat) (w w' : World) :
  while_running fuel SJF.execute_body w = (Return tt, w') ->
  exists new, history w' = history w ++ new /\
              Forall (fun x => waited (objs w' x)) (tail new).
Proof.
  intros Hrun.
  apply (while_running_partial SJF.execute_body
           (fun w' => exists new,
              history w' = history w ++ new /\
              (new <> [] -> forall r, running w' = Some r -> arrived w' r) /\
              Forall (fun x => waited (objs w' x)) (tail new)))
    in Hrun as [(new & Hh & _ & Hw') _]; [eauto| |].
  - clear. intros w1 r w2 Hr (new & Hnew & Harr & Hwait) Hbody.
    pose proof (sjf_body_spec w1 r Hr) as Hb. rewrite Hbody in Hb.
    destruct Hb as (Hran & Hh & Hsel).
    exists (new ++ [r]). split; [rewrite Hh, Hnew, app_assoc; reflexivity|].
    split.
    + intros _ p Hp.
      destruct Hsel as [(Hnone & _)|(q1 & p' & q2 & Hsome & _ & _ & Hp' & _)];
        congruence.
    + destruct new as [|h0 hs]; [constructor|].
      simpl in *. assert (Hne : h0 :: hs <> []) by discriminate.
      specialize (Harr Hne r Hr). unfold arrived in Harr.
      assert (Hr' : waited (objs w2 r)).
      { destruct Hran as (Ht & _ & Hobjs). rewrite Hobjs.
        destruct (decide (r = r)); [|congruence].
        apply finished_waited. lia. }
      apply Forall_app. split; [|repeat constructor; exact Hr'].
      eapply Forall_impl; [exact Hwait|]. simpl. intros x Hx.
      destruct (decide (x = r)) as [->|Hxr]; [exact Hr'|].
      rewrite (ran_other _ _ _ _ Hran Hxr). exact Hx.
  - exists []. rewrite app_nil_r. split; [reflexivity|].
    split; [congruence|constructor].
Qed.

(** X8.  When [SJF.execute] returns, from any state of the scheduler,
    every process this call has added to [history] after its first has
    a waiting time that is set and not negative: only the process
    [setup] starts the call with can be run before it has arrived.  On
    a new scheduler these are all the processes in [history] but the
    first. *)
Theorem sjf_waits_not_negative (w : World) :
  fst (SJF.execute w) = Return tt ->
  let w' := snd (SJF.execute w) in
  (exists new, history w' = history w ++ new /\
               Forall (fun x => waited (objs w' x)) (tail new)) /\
  (history w = [] -> Forall (fun x => waited (objs w' x)) (tail (history w'))).
Proof.
  intros Hret. cbv zeta.
  assert (Hnew : exists new,
            history (snd (SJF.execute w)) = history w ++ new /\
            Forall (fun x => waited (objs (snd (SJF.execute w)) x)) (tail new)).
  { revert Hret. pose proof (setup_spec w) as Hs.
    unfold SJF.execute, SJF.execute_for, bind.
    destruct (SJF.setup w) as [[[]|e|] w1]; [|discriminate|contradiction].
    destruct Hs as (p & q & _ & ->). intros Hret.
    apply returned_pair in Hret. exact (sjf_gating _ _ _ Hret). }
  split; [exact Hnew|].
  intros Hnil. destruct Hnew as (new & Hh & Hw). rewrite Hh, Hnil. exact Hw.
Qed.

Lemma sjf_waits_not_negative_witness :
  Forall (fun x => waited (objs (snd sjf_main) x)) (tail (history (snd sjf_main))).
Proof.
  apply (sjf_waits_not_negative (SJF.admitted sjf_main_objs [1; 2; 3; 4; 5]%nat));
    reflexivity.
Defined.

(** The first process of a call can be any process left in the queue:
    with [P1(0, 1)] and [P2(5, 1)] admitted, a first [execute] runs [P1]
    and leaves [P2], which has not arrived at clock 1, and a second
    [execute] starts with [P2] at clock 1, so that it has waited -4. *)
Lemma sjf_execute_again :
  let w1 := snd (SJF.execute (SJF.admitted gap_objs [1; 2]%nat)) in
  let w2 := snd (SJF.execute w1) in
  history w1 = [1%nat] /\ ready_queue w1 = [2%nat] /\
  fst (SJF.execute w1) = Return tt /\
  history w2 = [1; 2]%nat /\
  waiting_t (objs w2 2%nat) = Some (-4).
Proof. vm_compute. repeat split. Qed.

Section SortFacts.
Context {A : Type}.

Lemma insert_by_least (key : A -> Z) (x : A) (l : list A) :
  (forall y, y ∈ l -> key x <= key y) -> insert_by key x l = x :: l.
Proof.
  destruct l as [|y l]; simpl; [reflexivity|]. intros Hle.
  destruct (Z.leb_spec (key x) (key y)) as [_|Hgt]; [reflexivity|].
  assert (Hy : key x <= key y) by (apply Hle; left). lia.
Qed.

(** Sorting brings the first item of least key to the front and sorts
    the others behind it. *)
Lemma sort_by_first_min (key : A -> Z) (q1 q2 : list A) (p : A) :
  (forall x, x ∈ q1 -> key p < key x) ->
  (forall x, x ∈ q2 -> key p <= key x) ->
  sort_by key (q1 ++ p :: q2) = p :: sort_by key (q1 ++ q2).
Proof.
  intros H1 H2. induction q1 as [|a q1 IH]; simpl.
  - apply insert_by_least. intros y Hy. apply H2.
    rewrite <- (sort_by_perm key q2). exact Hy.
  - rewrite IH by (intros x Hx; apply H1; right; exact Hx). simpl.
    destruct (Z.leb_spec (key a) (key p)) as [Hle|_]; [|reflexivity].
    assert (Ha : key p < key a) by (apply H1; left). lia.
Qed.

Lemma sort_by_ext (key key' : A -> Z) (l : list A) :
  (forall x, key x = key' x) -> sort_by key l = sort_by key' l.
Proof.
  intros Hk. induction l as [|x l IH]; simpl; [reflexivity|].
  rewrite IH. generalize (sort_by key' l). intros s.
  induction s as [|y s IHs]; simpl; [reflexivity|].
  rewrite !Hk, IHs. reflexivity.
Qed.
End SortFacts.

(** X9.  The SJF engine starts with the process of least arrival time, and
    among several of them with the one admitted first: when the
    admission sequence is [q1 ++ p :: q2] with every process of [q1]
    arriving strictly after [p] and none of [q2] before it, [setup]
    makes [p] the running process, whatever the clock, and [p] is the
    first process in [history] after [execute]. *)
Theorem sjf_runs_earliest_first (store : ref -> Process)
    (q1 q2 : list ref) (p : ref) :
  (forall x, x ∈ q1 -> arrival_t (store p) < arrival_t (store x)) ->
  (forall x, x ∈ q2 -> arrival_t (store p) <= arrival_t (store x)) ->
  (forall h t,
     SJF.setup (mkWorld store None (q1 ++ p :: q2) h t) =
     (Return tt,
      mkWorld store (Some p)
              (sort_by (fun x => arrival_t (store x)) (q1 ++ q2)) h t)) /\
  head (history (snd (SJF.execute (SJF.admitted store (q1 ++ p :: q2))))) = Some p.
Proof.
  intros H1 H2.
  pose proof (sort_by_first_min (fun x => arrival_t (store x)) q1 q2 p H1 H2)
    as Hsort.
  split.
  - intros h t.
    unfold SJF.setup, bind, modify, ready_queue_pop0, bind, get, lift, modify, ret.
    simpl. rewrite Hsort. reflexivity.
  - destruct (sjf_execute_loop store (q1 ++ p :: q2))
      as [[Hnil _]|(p' & q & Hsort' & ->)].
    { destruct q1; discriminate. }
    rewrite Hsort in Hsort'. injection Hsort' as <- <-.
    simpl. unfold bind.
    pose proof (sjf_engine_step
                  (mkWorld store (Some p)
                     (sort_by (fun x => arrival_t (store x)) (q1 ++ q2)) [] 0)
                  p eq_refl) as Hb.
    destruct (SJF.execute_body p _) as [[[]|e|] w1]; [| |contradiction].
    + destruct Hb as (_ & Hh & _). simpl in Hh.
      pose proof (engine_history_grows SJF.execute_body
                    (length (q1 ++ p :: q2)) w1 sjf_engine_step) as [k Hk].
      rewrite Hk, Hh. reflexivity.
    + destruct Hb as (_ & Ht & Hlt & _). simpl in *. lia.
Qed.

Lemma sjf_runs_earliest_first_witness :
  head (history (snd (SJF.execute (SJF.admitted sjf_main_objs [1; 2; 3; 4; 5]%nat))))
  = Some 4%nat.
Proof.
  apply (sjf_runs_earliest_first sjf_main_objs [1; 2; 3]%nat [5]%nat 4%nat).
  - intros x Hx.
    repeat (apply elem_of_cons in Hx as [->|Hx]; [simpl; lia|]).
    inversion Hx.
  - intros x Hx.
    repeat (apply elem_of_cons in Hx as [->|Hx]; [simpl; lia|]).
    inversion Hx.
Defined.

Lemma elem_of_middle {A} (p : A) (q1 q2 : list A) : p ∈ q1 ++ p :: q2.
Proof. apply elem_of_app. right. left. Qed.

Lemma elem_of_middle_skip {A} (x p : A) (q1 q2 : list A) :
  x ∈ q1 ++ q2 -> x ∈ q1 ++ p :: q2.
Proof. rewrite !elem_of_app, elem_of_cons. tauto. Qed.

Lemma elem_of_middle_front {A} (x p : A) (q1 q2 : list A) :
  x ∈ p :: q1 ++ q2 <-> x ∈ q1 ++ p :: q2.
Proof. rewrite !elem_of_cons, !elem_of_app, elem_of_cons. tauto. Qed.

(** When every queued process will have arrived by the time the running
    one completes, and no burst time is negative, the loop of
    [SJF.execute] runs the whole queue, shortest burst first. *)
Lemma sjf_loop_shortest_first (fuel : nat) :
  forall (w : World) (r : ref),
    running w = Some r ->
    0 <= total_t w ->
    (forall x, x ∈ pending w -> 0 <= burst_t (objs w x)) ->
    (forall x, x ∈ ready_queue w ->
               arrival_t (objs w x) <= total_t w + burst_t (objs w r)) ->
    (length (ready_queue w) < fuel)%nat ->
    exists w',
      while_running fuel SJF.execute_body w = (Return tt, w') /\
      history w' =
        history w ++ r :: sort_by (fun x => burst_t (objs w x)) (ready_queue w) /\
      ready_queue w' = [].
Proof.
  induction fuel as [|fuel IH]; intros w r Hr Ht Hburst Harr Hlen; [lia|].
  simpl. rewrite Hr. unfold bind.
  pose proof (sjf_body_spec w r Hr) as Hb.
  destruct (SJF.execute_body r w) as [[[]|e|] w1]; [| |contradiction].
  2:{ destruct Hb as (_ & Ht1 & Hlt & _). lia. }
  destruct Hb as (Hran & Hh & Hsel).
  pose proof (ran_static _ _ _ Hran) as Hs.
  assert (Ht1 : total_t w1 = total_t w + burst_t (objs w r)) by apply Hran.
  assert (Hr0 : 0 <= burst_t (objs w r)).
  { apply Hburst. rewrite (pending_running _ _ Hr). left. }
  assert (Hall : forall x, x ∈ ready_queue w -> arrived w1 x).
  { intros x Hx. unfold arrived. destruct (Hs x) as (_ & -> & _).
    rewrite Ht1. auto. }
  destruct Hsel as [(Hnone & Hq & Hnot)|(q1 & p & q2 & Hsome & Hq & Hq' & _ & H1 & H2)].
  - destruct (ready_queue w) as [|x q] eqn:Hqw.
    + exists w1. split; [|split; [rewrite Hh; reflexivity|exact Hq]].
      destruct fuel; simpl; rewrite Hnone; reflexivity.
    + exfalso. apply (Hnot x); [left|]. apply Hall. left.
  - destruct (IH w1 p Hsome) as (w' & Hrun & Hh' & Hq'').
    + lia.
    + intros x Hx. destruct (Hs x) as (_ & _ & ->). apply Hburst.
      rewrite (pending_running _ _ Hr), (pending_running _ _ Hsome) in *.
      right. rewrite Hq. rewrite Hq' in Hx.
      apply elem_of_middle_front. exact Hx.
    + intros x Hx. rewrite Hq' in Hx.
      assert (Hxq : x ∈ ready_queue w)
        by (rewrite Hq; apply elem_of_middle_skip; exact Hx).
      specialize (Hall x Hxq). unfold arrived in Hall.
      assert (0 <= burst_t (objs w1 p)).
      { destruct (Hs p) as (_ & _ & ->). apply Hburst.
        rewrite (pending_running _ _ Hr), Hq. right. apply elem_of_middle. }
      lia.
    + rewrite Hq', length_app. rewrite Hq, length_app in Hlen. simpl in Hlen. lia.
    + exists w'. split; [exact Hrun|split; [|exact Hq'']].
      rewrite Hh', Hh, Hq', Hq, <- app_assoc. simpl. do 2 f_equal.
      rewrite (sort_by_first_min (fun x => burst_t (objs w x)) q1 q2 p).
      * f_equal. apply sort_by_ext. intros x. apply Hs.
      * intros x Hx. destruct (Hs x) as (_ & _ & <-).
        destruct (Hs p) as (_ & _ & <-). apply H1; [exact Hx|].
        apply Hall. rewrite Hq. apply elem_of_app. left. exact Hx.
      * intros x Hx. destruct (Hs x) as (_ & _ & <-).
        destruct (Hs p) as (_ & _ & <-). apply H2; [exact Hx|].
        apply Hall. rewrite Hq. apply elem_of_app. right. right. exact Hx.
Qed.

(** X10.  Shortest job first.  Let the admission sequence be [q1 ++ p :: q2]
    with [p] the first process of least arrival time, let no burst time
    be negative and let every other process arrive no later than the
    burst time of [p].  Then [SJF.execute] returns, leaves the queue
    empty, and [history] is [p] followed by all the other processes in
    ascending order of burst time, processes of equal burst time in
    ascending order of arrival time, and those of equal arrival time
    too in admission order. *)
Theorem sjf_runs_shortest_first (store : ref -> Process)
    (q1 q2 : list ref) (p : ref) :
  (forall x, x ∈ q1 -> arrival_t (store p) < arrival_t (store x)) ->
  (forall x, x ∈ q2 -> arrival_t (store p) <= arrival_t (store x)) ->
  (forall x, x ∈ q1 ++ p :: q2 -> 0 <= burst_t (store x)) ->
  (forall x, x ∈ q1 ++ q2 -> arrival_t (store x) <= burst_t (store p)) ->
  let res := SJF.execute (SJF.admitted store (q1 ++ p :: q2)) in
  fst res = Return tt /\
  ready_queue (snd res) = [] /\
  history (snd res) =
    p :: sort_by (fun x => burst_t (store x))
           (sort_by (fun x => arrival_t (store x)) (q1 ++ q2)).
Proof.
  intros H1 H2 Hburst Harr.
  pose proof (sort_by_first_min (fun x => arrival_t (store x)) q1 q2 p H1 H2)
    as Hsort.
  destruct (sjf_execute_loop store (q1 ++ p :: q2))
    as [[Hnil _]|(p' & q & Hsort' & Hexec)].
  { destruct q1; discriminate. }
  rewrite Hsort in Hsort'. injection Hsort' as <- <-.
  cbv zeta. rewrite Hexec.
  destruct (sjf_loop_shortest_first (S (length (q1 ++ p :: q2)))
              (mkWorld store (Some p)
                 (sort_by (fun x => arrival_t (store x)) (q1 ++ q2)) [] 0)
              p eq_refl) as (w' & -> & Hh & Hq); simpl.
  - lia.
  - intros x Hx. apply Hburst.
    change (x ∈ p :: sort_by (fun x => arrival_t (store x)) (q1 ++ q2)) in Hx.
    rewrite sort_by_perm in Hx. apply elem_of_middle_front. exact Hx.
  - intros x Hx. rewrite sort_by_perm in Hx. specialize (Harr x Hx). lia.
  - rewrite sort_by_length, !length_app. simpl. lia.
  - auto.
Qed.

(** Four processes all arriving at 0. *)
Lemma sjf_runs_shortest_first_witness :
  history (snd (SJF.execute (SJF.admitted
     (fun r => Process_init "P" 0 (Z.of_nat r)) [3; 1; 2; 1]%nat)))
  = [3; 1; 1; 2]%nat.
Proof.
  apply (sjf_runs_shortest_first
           (fun r => Process_init "P" 0 (Z.of_nat r)) [] [1; 2; 1]%nat 3%nat);
    simpl; intros x Hx; try lia.
  inversion Hx.
Defined.

(** ** When [execute] raises *)

(** X1.  [update_running_process] does nothing without a running process.
    With one, it first advances the clock by the burst time, and then
    raises exactly when the clock was negative before the call, whatever
    the burst time: the clock stays advanced and no object is touched.
    Otherwise it returns with the three timings of the running process
    set from the new clock. *)
Theorem update_running_process_cases (w : World) :
  (running w = None -> update_running_process w = (Return tt, w)) /\
  (forall r, running w = Some r ->
     let res := update_running_process w in
     (total_t w < 0 ->
      fst res = Raise Exceptions.invalid_completion_time /\
      refused r w (snd res)) /\
     (0 <= total_t w ->
      fst res = Return tt /\ ran r w (snd res) /\
      running (snd res) = Some r /\ ready_queue (snd res) = ready_queue w /\
      history (snd res) = history w)).
Proof.
  split.
  - intros Hr. unfold update_running_process, bind, get. rewrite Hr.
    reflexivity.
  - intros r Hr res. subst res.
    pose proof (update_running_process_spec w r Hr) as Hu.
    destruct (update_running_process w) as [[[]|e|] w1]; simpl;
      [| |contradiction].
    + destruct Hu as (Hran & Hrun & Hq & Hh). split.
      * intros Hneg. destruct Hran as (Ht & Hb & _). lia.
      * intros _. rewrite Hrun, Hr in *. auto.
    + destruct Hu as (-> & Href). split; [auto|].
      intros Hpos. destruct Href as (Ht & Hlt & _). lia.
Qed.

Lemma update_running_process_cases_witness :
  fst (update_running_process (mkWorld fcfs_main_objs (Some 1%nat) [] [] (-1)))
  = Raise Exceptions.invalid_completion_time /\
  fst (update_running_process (mkWorld fcfs_main_objs (Some 1%nat) [] [] 0))
  = Return tt.
Proof.
  split.
  - apply (update_running_process_cases
             (mkWorld fcfs_main_objs (Some 1%nat) [] [] (-1))) with (r := 1%nat);
      [reflexivity|simpl; lia].
  - apply (update_running_process_cases
             (mkWorld fcfs_main_objs (Some 1%nat) [] [] 0)) with (r := 1%nat);
      [reflexivity|simpl; lia].
Defined.

(** The only exception the loop of either engine lets out is
    [InvalidCompletionTimeError]. *)
Lemma engine_raises_only (body : ref -> M World unit) (fuel : nat) :
  engine_step body ->
  forall w e, fst (while_running fuel body w) = Raise e ->
              e = Exceptions.invalid_completion_time.
Proof.
  intros Hstep. induction fuel as [|fuel IH]; intros w e; simpl;
    destruct (running w) as [r|] eqn:Hr; simpl; try discriminate.
  unfold bind. specialize (Hstep w r Hr).
  destruct (body r w) as [[[]|e'|] w1]; simpl; [|intros [= <-]|contradiction].
  - apply IH.
  - apply Hstep.
Qed.

(** X4.  What [execute] can end in, from any state of the scheduler.
    The FCFS engine returns or raises [InvalidCompletionTimeError].  The
    SJF engine raises [IndexError] exactly when [ready_queue] is empty
    at the call, which on a new scheduler is when nothing has been
    admitted, and otherwise returns or raises
    [InvalidCompletionTimeError]; the [ValueError] of [min] never gets
    out. *)
Theorem execute_outcomes (w : World) :
  (fst (FCFS.execute w) = Return tt \/
   fst (FCFS.execute w) = Raise Exceptions.invalid_completion_time) /\
  (fst (SJF.execute w) = Raise IndexError <-> ready_queue w = []) /\
  (fst (SJF.execute w) = Return tt \/
   fst (SJF.execute w) = Raise IndexError \/
   fst (SJF.execute w) = Raise Exceptions.invalid_completion_time) /\
  (forall store ps,
     fst (SJF.execute (SJF.admitted store ps)) = Raise IndexError <-> ps = []).
Proof.
  assert (Hidx : forall w0,
            fst (SJF.execute w0) = Raise IndexError <-> ready_queue w0 = []).
  { intros w0. pose proof (setup_spec w0) as Hs.
    unfold SJF.execute, SJF.execute_for, bind.
    destruct (SJF.setup w0) as [[[]|e|] w1]; [| |contradiction].
    - destruct Hs as (p & q & Hsort & _). split.
      + intros Hi. apply (engine_raises_only _ _ sjf_engine_step) in Hi.
        discriminate.
      + intros Hq. rewrite Hq in Hsort. discriminate.
    - destruct Hs as (-> & Hq & _). split; auto. }
  split; [|split; [exact (Hidx w)|split]].
  - destruct (fcfs_fuel_irrelevant (S (length (ready_queue w))) w)
      as [_ Hfuel]; [lia|].
    revert Hfuel. unfold FCFS.execute, FCFS.execute_for. intros Hfuel.
    pose proof (engine_raises_only FCFS.execute_body
                  (S (length (ready_queue w))) fcfs_engine_step w) as Hr.
    destruct (fst (while_running _ _ _)) as [[]|e|]; auto.
    + right. f_equal. apply Hr. reflexivity.
    + contradiction.
  - destruct (sjf_fuel_irrelevant (S (length (ready_queue w))) w)
      as [_ Hfuel]; [lia|].
    revert Hfuel. pose proof (setup_spec w) as Hs.
    unfold SJF.execute, SJF.execute_for, bind.
    destruct (SJF.setup w) as [[[]|e|] w1]; [| |contradiction].
    + intros Hfuel.
      pose proof (engine_raises_only SJF.execute_body
                    (S (length (ready_queue w))) sjf_engine_step w1) as Hr.
      destruct (fst (while_running _ _ _)) as [[]|e|]; auto.
      * right. right. f_equal. apply Hr. reflexivity.
      * contradiction.
    + destruct Hs as (-> & _). auto.
  - intros store ps. rewrite (Hidx (SJF.admitted store ps)).
    rewrite sjf_admitted_eq. reflexivity.
Qed.

(** From a running process on, the loop of [FCFS.execute] returns
    exactly when the clock is not negative before any of the runs. *)
Lemma fcfs_loop_returns_iff (fuel : nat) :
  forall (w : World) (r : ref),
    running w = Some r ->
    (length (ready_queue w) < fuel)%nat ->
    fst (while_running fuel FCFS.execute_body w) = Return tt <->
    forall k, (k <= length (ready_queue w))%nat ->
      0 <= total_t w +
           sum_Z (take k (map (fun x => burst_t (objs w x)) (r :: ready_queue w))).
Proof.
  induction fuel as [|fuel IH]; intros w r Hr Hlen; [lia|].
  simpl while_running. rewrite Hr. unfold bind.
  pose proof (fcfs_body_spec w r Hr) as Hb.
  destruct (FCFS.execute_body r w) as [[[]|e|] w1]; [| |contradiction].
  - destruct Hb as (Hran & _ & Hrun & Hq).
    pose proof (ran_static _ _ _ Hran) as Hs.
    destruct Hran as (Ht & Hge & _).
    destruct (ready_queue w) as [|a q] eqn:Hqw; simpl in Hrun, Hq.
    + split.
      * intros _ k Hk. assert (k = 0%nat) as -> by (simpl in Hk; lia).
        unfold sum_Z. simpl. lia.
      * intros _. destruct fuel; simpl; rewrite Hrun; reflexivity.
    + rewrite (IH w1 a Hrun) by (rewrite Hq; simpl in Hlen; lia).
      rewrite Hq, Ht.
      assert (Hmap : map (fun x => burst_t (objs w1 x)) (a :: q) =
                     map (fun x => burst_t (objs w x)) (a :: q)).
      { apply map_ext. intros x. apply Hs. }
      rewrite Hmap. split.
      * intros H k Hk. destruct k as [|k].
        -- unfold sum_Z. simpl. lia.
        -- simpl in Hk. assert (Hk' : (k <= length q)%nat) by lia.
           specialize (H k Hk'). revert H.
           change (take (S k) (map (fun x => burst_t (objs w x)) (r :: a :: q)))
             with (burst_t (objs w r) ::
                   take k (map (fun x => burst_t (objs w x)) (a :: q))).
           generalize (take k (map (fun x => burst_t (objs w x)) (a :: q))).
           intros l. unfold sum_Z. simpl. lia.
      * intros H k Hk.
        assert (Hk' : (S k <= length (a :: q))%nat) by (simpl; lia).
        specialize (H (S k) Hk'). revert H.
        change (take (S k) (map (fun x => burst_t (objs w x)) (r :: a :: q)))
          with (burst_t (objs w r) ::
                take k (map (fun x => burst_t (objs w x)) (a :: q))).
        generalize (take k (map (fun x => burst_t (objs w x)) (a :: q))).
        intros l. unfold sum_Z. simpl. lia.
  - destruct Hb as (_ & Ht & Hlt & _). split; [discriminate|].
    intros H. specialize (H 0%nat). unfold sum_Z in H. simpl in H.
    assert (Hz : (0 <= length (ready_queue w))%nat) by lia.
    specialize (H Hz). lia.
Qed.

(** X3.  [FCFS.execute] returns exactly when no process finds the clock
    negative: the burst times of the first [k] admitted processes must
    not sum below zero, for every [k] smaller than their number.  With
    burst times that are not negative this always holds; a negative
    burst time makes the run of the next process fail. *)
Theorem fcfs_returns_iff (store : ref -> Process) (ps : list ref) :
  fst (FCFS.execute (FCFS.admitted store ps)) = Return tt <->
  forall k, (k < length ps)%nat ->
            0 <= sum_Z (take k (map (fun x => burst_t (store x)) ps)).
Proof.
  rewrite fcfs_execute_loop. destruct ps as [|p ps].
  - simpl. split; [intros _ k Hk; lia|reflexivity].
  - rewrite (fcfs_loop_returns_iff _ _ p) by (simpl; auto). simpl.
    split; intros H k Hk; specialize (H k).
    + assert (Hk' : (k <= length ps)%nat) by lia. specialize (H Hk'). lia.
    + assert (Hk' : (k < S (length ps))%nat) by lia. specialize (H Hk'). lia.
Qed.

(** ** Using a scheduler again *)

Lemma update_running_process_queue (w : World) (q' : list ref) :
  update_running_process (with_ready_queue q' w) =
  (fst (update_running_process w),
   with_ready_queue q' (snd (update_running_process w))).
Proof.
  unfold update_running_process, bind, get. simpl.
  destruct (running w) as [r|]; [|reflexivity].
  unfold modify, call, set_completion_t, bind, get. simpl.
  destruct (total_t w + burst_t (objs w r) <? burst_t (objs w r)); simpl;
    [reflexivity|].
  unfold set_turnaround_t, bind, get, modify. simpl.
  rewrite !fn_lookup_insert. simpl.
  unfold set_waiting_t, bind, get, modify. simpl.
  rewrite !fn_lookup_insert. reflexivity.
Qed.

Lemma fcfs_body_eq (r : ref) (w : World) :
  FCFS.execute_body r w =
  match update_running_process w with
  | (Return _, w1) =>
      (Return tt,
       mkWorld (objs w1) (head (ready_queue w1)) (tail (ready_queue w1))
               (history w1 ++ [r]) (total_t w1))
  | (Raise e, w1) => (Raise e, w1)
  | (OutOfFuel, w1) => (OutOfFuel, w1)
  end.
Proof.
  unfold FCFS.execute_body. unfold bind at 1.
  destruct (update_running_process w) as [[[]|e|] w1]; try reflexivity.
  unfold bind, history_append, modify, try_except, ready_queue_pop0, bind, get,
    lift, modify, ret.
  destruct w1 as [o1 r1 q1 h1 t1]. simpl. destruct q1; reflexivity.
Qed.

Lemma fcfs_add_all_stopped (qs : list ref) (w : World) :
  running w = None -> ready_queue w = [] ->
  snd (add_all FCFS.add_process qs w) =
  mkWorld (objs w) (head qs) (tail qs) (history w) (total_t w).
Proof.
  intros Hr Hq. destruct qs as [|a qs]; simpl.
  - destruct w; simpl in *. subst. reflexivity.
  - assert (Hadd : FCFS.add_process a w = (Return tt, with_running (Some a) w)).
    { unfold FCFS.add_process, bind, get, modify. rewrite Hr. reflexivity. }
    unfold bind. rewrite Hadd.
    rewrite (fcfs_add_all_running qs (with_running (Some a) w) a eq_refl).
    simpl. rewrite Hq. reflexivity.
Qed.

(** Running the loop to its end and then admitting [qs] and running the
    loop again is running the loop once with [qs] behind the queue. *)
Lemma fcfs_batch_loop (qs : list ref) (fuel1 : nat) :
  forall (w w1 : World) (r : ref) (fuel2 fuel3 : nat),
    running w = Some r ->
    while_running fuel1 FCFS.execute_body w = (Return tt, w1) ->
    (length (tail qs) < fuel2)%nat ->
    (length (ready_queue w ++ qs) < fuel3)%nat ->
    while_running fuel2 FCFS.execute_body
      (mkWorld (objs w1) (head qs) (tail qs) (history w1) (total_t w1)) =
    while_running fuel3 FCFS.execute_body
      (with_ready_queue (ready_queue w ++ qs) w).
Proof.
  induction fuel1 as [|fuel1 IH]; intros w w1 r fuel2 fuel3 Hr Hrun H2 H3;
    simpl in Hrun; rewrite Hr in Hrun; [discriminate|].
  destruct fuel3 as [|fuel3]; [lia|].
  simpl while_running at 2. simpl running. rewrite Hr.
  unfold bind in Hrun |- *.
  rewrite fcfs_body_eq in Hrun. rewrite fcfs_body_eq.
  rewrite update_running_process_queue.
  pose proof (update_running_process_spec w r Hr) as Hu.
  destruct (update_running_process w) as [[[]|e|] wu]; try discriminate.
  destruct Hu as (_ & _ & Hq & _). simpl. rewrite Hq in *.
  destruct (ready_queue w) as [|a q] eqn:Hqw; simpl in *.
  - destruct fuel1; simpl in Hrun; injection Hrun as <-; simpl.
    + destruct qs as [|b qs]; simpl.
      * destruct fuel2, fuel3; reflexivity.
      * apply (while_running_fuel _ fcfs_queue_shrinks); simpl in *; lia.
    + destruct qs as [|b qs]; simpl.
      * destruct fuel2, fuel3; reflexivity.
      * apply (while_running_fuel _ fcfs_queue_shrinks); simpl in *; lia.
  - apply (IH (mkWorld (objs wu) (Some a) q (history wu ++ [r]) (total_t wu))
              w1 a fuel2 fuel3 eq_refl Hrun H2). simpl. lia.
Qed.

(** X11.  The FCFS engine can be fed in batches: when [execute] has returned
    on the admission sequence [ps], admitting [qs] to the same scheduler
    and calling [execute] again ends exactly as admitting [ps ++ qs] to
    a fresh scheduler and calling [execute] once.  In particular a second
    [execute] with nothing new admitted changes nothing. *)
Theorem fcfs_batches_compose (store : ref -> Process) (ps qs : list ref) :
  fst (FCFS.execute (FCFS.admitted store ps)) = Return tt ->
  FCFS.execute
    (snd (add_all FCFS.add_process qs
            (snd (FCFS.execute (FCFS.admitted store ps))))) =
  FCFS.execute (FCFS.admitted store (ps ++ qs)).
Proof.
  destruct ps as [|p ps]; [reflexivity|].
  intros Hret.
  set (w0 := mkWorld store (Some p) ps [] 0).
  assert (Hadm : FCFS.admitted store (p :: ps) = w0) by apply fcfs_admitted_eq.
  assert (Hadm2 : FCFS.admitted store ((p :: ps) ++ qs) =
                  with_ready_queue (ready_queue w0 ++ qs) w0)
    by apply fcfs_admitted_eq.
  rewrite Hadm in *. rewrite Hadm2.
  pose proof (while_running_stops FCFS.execute_body
                (S (length (ready_queue w0))) w0) as Hnone.
  pose proof (fcfs_stopped (S (length (ready_queue w0))) w0) as Hq.
  cbv zeta in Hq.
  change (while_running (S (length (ready_queue w0))) FCFS.execute_body w0)
    with (FCFS.execute w0) in Hnone, Hq.
  destruct (FCFS.execute w0) as [o w1] eqn:Hexec. simpl in Hret, Hnone, Hq.
  subst o. specialize (Hnone eq_refl).
  assert (Hq1 : ready_queue w1 = []) by (apply Hq; [discriminate|exact Hnone]).
  simpl snd. rewrite (fcfs_add_all_stopped qs w1 Hnone Hq1).
  unfold FCFS.execute, FCFS.execute_for in Hexec |- *.
  apply (fcfs_batch_loop qs (S (length (ready_queue w0))) w0 w1 p);
    [reflexivity|exact Hexec|simpl; lia|simpl; lia].
Qed.

Lemma fcfs_batches_compose_witness :
  FCFS.execute
    (snd (add_all FCFS.add_process [2; 3]%nat
            (snd (FCFS.execute (FCFS.admitted fcfs_main_objs [0; 1]%nat))))) =
  FCFS.execute (FCFS.admitted fcfs_main_objs [0; 1; 2; 3]%nat).
Proof.
  apply (fcfs_batches_compose fcfs_main_objs [0; 1]%nat [2; 3]%nat).
  reflexivity.
Defined.

(** X12.  [SJF.execute] raises [IndexError] exactly when [ready_queue] is
    empty at the call, whatever the rest of the state, and then changes
    nothing: so it fails on a fresh scheduler, and it fails when called
    again after a run that has emptied the queue. *)
Theorem sjf_execute_empty_queue (w : World) :
  (fst (SJF.execute w) = Raise IndexError <-> ready_queue w = []) /\
  (ready_queue w = [] -> SJF.execute w = (Raise IndexError, w)).
Proof.
  assert (Hempty : ready_queue w = [] -> SJF.execute w = (Raise IndexError, w)).
  { intros Hq. destruct w as [o r q h t]. simpl in Hq. subst q. reflexivity. }
  split; [|exact Hempty].
  split; [|intros Hq; rewrite (Hempty Hq); reflexivity].
  unfold SJF.execute, SJF.execute_for, bind.
  pose proof (setup_spec w) as Hs.
  destruct (SJF.setup w) as [[[]|e|] w1]; [| |contradiction].
  - intros Hidx. apply (engine_raises_only _ _ sjf_engine_step) in Hidx.
    discriminate.
  - intros _. apply Hs.
Qed.

(** ** The timing setters of [Process] *)

(** X2.  Called in the order the engines use, with a completion time that
    passes the check, the three setters leave the process with
    consistent timings whatever the fields held before.  Called in the
    opposite order on a new process, the two derived setters do nothing
    and only [completion_t] ends up set. *)
Theorem timing_setters_compose (t : Z) (p : Process) :
  burst_t p <= t ->
  (set_completion_t t ;; set_turnaround_t ;; set_waiting_t) p =
    (Return tt, finished t p) /\
  (set_waiting_t ;; set_turnaround_t ;; set_completion_t t)
    (Process_init (p_id p) (arrival_t p) (burst_t p)) =
    (Return tt, mkProcess (p_id p) (arrival_t p) (burst_t p) (Some t) None None).
Proof.
  intros Hle.
  unfold bind, set_completion_t, set_turnaround_t, set_waiting_t, bind, get,
    modify, raise, ret. simpl.
  destruct (Z.ltb_spec t (burst_t p)) as [Hlt|_]; [lia|].
  split; reflexivity.
Qed.

Lemma timing_setters_compose_witness :
  (set_completion_t 8 ;; set_turnaround_t ;; set_waiting_t)
    (Process_init "P1" 1 3) =
  (Return tt, mkProcess "P1" 1 3 (Some 8) (Some 7) (Some 4)).
Proof.
  apply (timing_setters_compose 8 (Process_init "P1" 1 3)). simpl. lia.
Defined.

(** ** Averages after [execute] *)

Lemma waiting_avg_spec :
  avg_spec waiting_t Exceptions.missing_waiting_time calc_avg_waiting_t.
Proof.
  apply (averages_meet_spec waiting_t _ sum_waiting_t); try reflexivity;
    discriminate.
Qed.

Lemma turnaround_avg_spec :
  avg_spec turnaround_t Exceptions.missing_turnaround_time calc_avg_turnaround_t.
Proof.
  apply (averages_meet_spec turnaround_t _ sum_turnaround_t); try reflexivity;
    discriminate.
Qed.

Lemma timings_lists (os : ref -> Process) (h : list ref) :
  Forall (fun x => timings_ok (os x)) h ->
  exists ws ts,
    map (fun x => waiting_t (os x)) h = Some <$> ws /\
    map (fun x => turnaround_t (os x)) h = Some <$> ts /\
    sum_Z ts = sum_Z ws + sum_Z (map (fun x => burst_t (os x)) h).
Proof.
  induction 1 as [|x h Hx _ (ws & ts & Hws & Hts & Hsum)].
  - exists [], []. repeat split.
  - destruct Hx as (c & t & wt & _ & Ht & Hw & _ & _ & Hwt).
    exists (wt :: ws), (t :: ts). simpl. rewrite Ht, Hw, Hws, Hts.
    repeat split. unfold sum_Z in *. simpl. lia.
Qed.

(** Consistent timings along [history] make both averages defined. *)
Lemma timings_averages_defined (w : World) :
  Forall (fun x => timings_ok (objs w x)) (history w) -> averages_defined w.
Proof.
  intros Hok. destruct (timings_lists _ _ Hok) as (ws & ts & Hws & Hts & Hsum).
  destruct (waiting_avg_spec w) as (_ & _ & Hw).
  destruct (turnaround_avg_spec w) as (_ & _ & Ht).
  specialize (Hw _ Hws). specialize (Ht _ Hts).
  assert (Hzero : forall (calc : outcome SpecFloat.spec_float) total,
            calc = true_div total (Z.of_nat (length (history w))) ->
            calc = Raise ZeroDivisionError <-> history w = []).
  { clear. intros calc total ->. rewrite true_div_length.
    destruct (history w) as [|x h]; [tauto|].
    destruct (nearest_double _ _); split; intros H; discriminate H. }
  rewrite <- true_div_length in Hw, Ht.
  exists ws, ts. split; [exact Hws|]. split; [exact Hts|].
  split; [exact Hw|]. split; [exact Ht|].
  split; [exact (Hzero _ _ Hw)|]. split; [exact (Hzero _ _ Ht)|].
  exact Hsum.
Qed.

(** X13.  After [execute], of either engine and however it ended, neither
    average can raise a missing-field error: every waiting and
    turnaround time along [history] is set, each average is the true
    division [/] of the sum of its field by [len(history)] (the nearest
    double, or [OverflowError] beyond the doubles), it raises
    [ZeroDivisionError] exactly when [history] is empty, and the
    turnaround times sum to the waiting times plus the burst times. *)
Theorem averages_after_execute (store : ref -> Process) (ps : list ref) :
  averages_defined (snd (FCFS.execute (FCFS.admitted store ps))) /\
  averages_defined (snd (SJF.execute (SJF.admitted store ps))).
Proof.
  split; apply timings_averages_defined.
  - rewrite fcfs_execute_loop.
    apply (engine_timings _ fcfs_engine_step). constructor.
  - destruct (sjf_execute_loop store ps) as [[_ ->]|(p & q & _ & ->)].
    + constructor.
    + apply (engine_timings _ sjf_engine_step). constructor.
Qed.

(** ** Printing *)

Lemma append_assoc (a b c : string) : (a +:+ b) +:+ c = a +:+ b +:+ c.
Proof.
  induction a as [|x a IH]; [reflexivity|].
  change (String x ((a +:+ b) +:+ c) = String x (a +:+ b +:+ c)).
  f_equal. exact IH.
Qed.

Lemma append_nil_r (a : string) : a +:+ "" = a.
Proof.
  induction a as [|x a IH]; [reflexivity|].
  change (String x (a +:+ "") = String x a). f_equal. exact IH.
Qed.

Lemma py_len_append (a b : string) :
  py_len (a +:+ b) = (py_len a + py_len b)%nat.
Proof.
  induction a as [|x a IH]; [reflexivity|].
  change (py_len (String x (a +:+ b)) = (py_len (String x a) + py_len b)%nat).
  simpl. destruct (continuation x); rewrite IH; reflexivity.
Qed.

Lemma py_len_str_mul (s : string) (n : nat) :
  py_len (str_mul s n) = (n * py_len s)%nat.
Proof.
  induction n as [|n IH]; simpl; [reflexivity|].
  rewrite py_len_append, IH. reflexivity.
Qed.

Lemma py_len_print (s e out : string) :
  py_len (print s e out) = (py_len out + py_len s + py_len e)%nat.
Proof. unfold print. rewrite !py_len_append. lia. Qed.

Lemma print_times_eq (n : nat) (s out : string) :
  print_times n s out = out +:+ str_mul s n.
Proof.
  revert out. induction n as [|n IH]; intros out; simpl.
  - rewrite append_nil_r. reflexivity.
  - rewrite IH. unfold print. rewrite append_nil_r, append_assoc. reflexivity.
Qed.

Lemma render_cells_app (objs : ref -> Process) (c1 c2 : list ref) :
  render_cells objs (c1 ++ c2) = render_cells objs c1 +:+ render_cells objs c2.
Proof.
  induction c1 as [|p c1 IH]; simpl; [reflexivity|].
  rewrite IH, !append_assoc. reflexivity.
Qed.

Lemma render_cells_replicate (objs : ref -> Process) (n : nat) (p : ref) :
  render_cells objs (replicate n p) = str_mul ("|" +:+ p_id (objs p)) n.
Proof.
  induction n as [|n IH]; simpl; [reflexivity|]. rewrite IH. reflexivity.
Qed.

Lemma print_gantt_cells_eq (objs : ref -> Process) (h : list ref) (out : string) :
  print_gantt_cells objs h out =
  out +:+ render_cells objs
            (List.concat
               (map (fun p => replicate (Z.to_nat (burst_t (objs p))) p) h)).
Proof.
  revert out. induction h as [|p h IH]; intros out; simpl.
  - rewrite append_nil_r. reflexivity.
  - rewrite IH, print_times_eq, render_cells_app, render_cells_replicate,
      append_assoc. reflexivity.
Qed.

Lemma gantt_cells_length (w : World) :
  (forall x, x ∈ history w -> 0 <= burst_t (objs w x)) ->
  Z.of_nat (length (gantt_cells w)) = sum_Z (bursts w).
Proof.
  unfold gantt_cells, bursts. induction (history w) as [|p h IH]; intros Hpos.
  - reflexivity.
  - simpl. rewrite length_app, length_replicate, Nat2Z.inj_add, IH.
    + assert (0 <= burst_t (objs w p)) by (apply Hpos; left).
      unfold sum_Z. simpl. lia.
    + intros x Hx. apply Hpos. right. exact Hx.
Qed.

(** When the loop returns from a fresh clock over burst times that are
    not negative, the Gantt chart has one cell per unit of the clock. *)
Lemma engine_gantt (body : ref -> M World unit) (fuel : nat) (w : World) :
  engine_step body ->
  history w = [] -> total_t w = 0 ->
  (forall x, x ∈ pending w -> 0 <= burst_t (objs w x)) ->
  (length (ready_queue w) < fuel)%nat ->
  let w' := snd (while_running fuel body w) in
  Z.of_nat (length (gantt_cells w')) = total_t w'.
Proof.
  intros Hstep Hh Ht Hburst Hfuel.
  destruct (engine_returns body Hstep fuel w) as (w' & Hrun & _ & _);
    [lia|exact Hburst|exact Hfuel|].
  cbv zeta. rewrite Hrun. simpl.
  rewrite (engine_clock_total body Hstep fuel w w'); [|
    unfold bursts; rewrite Hh, Ht; reflexivity|exact Hrun].
  apply gantt_cells_length. intros x Hx.
  pose proof (engine_static body Hstep fuel w x) as (_ & _ & Hb).
  pose proof (engine_accounting body Hstep fuel w) as Hacc.
  cbv zeta in Hacc. rewrite Hrun in Hb, Hacc. simpl in Hb, Hacc.
  rewrite Hb. apply Hburst.
  rewrite Hh in Hacc. simpl in Hacc. rewrite <- Hacc.
  apply elem_of_app. left. exact Hx.
Qed.

(** X14.  [print_gantt_chart] never fails: it prints the title, then for each
    process of [history] in order as many cells [|id] as its burst time
    (none when that is negative), then the closing bar and an empty
    line.  After [execute] over burst times that are not negative, by
    either engine, the chart has exactly [total_t] cells: one per unit
    of the simulated clock. *)
Theorem gantt_chart_spans_clock (store : ref -> Process) (ps : list ref) :
  (forall x, x ∈ ps -> 0 <= burst_t (store x)) ->
  (forall w out,
     print_gantt_chart w out =
     out +:+ "Gantt chart: " +:+ render_cells (objs w) (gantt_cells w) +:+
     "|" +:+ newline +:+ newline) /\
  (let w' := snd (FCFS.execute (FCFS.admitted store ps)) in
   Z.of_nat (length (gantt_cells w')) = total_t w') /\
  (let w' := snd (SJF.execute (SJF.admitted store ps)) in
   Z.of_nat (length (gantt_cells w')) = total_t w').
Proof.
  intros Hburst. split; [|split].
  - intros w out. unfold print_gantt_chart, print, gantt_cells.
    rewrite print_gantt_cells_eq, append_nil_r, !append_assoc. reflexivity.
  - rewrite fcfs_execute_loop.
    apply (engine_gantt _ _ _ fcfs_engine_step); auto.
    rewrite fcfs_pending_admitted. exact Hburst.
  - destruct (sjf_execute_loop store ps) as [[_ ->]|(p & q & Hsort & ->)];
      [reflexivity|].
    apply (engine_gantt _ _ _ sjf_engine_step); auto.
    + intros x Hx. apply Hburst.
      rewrite <- (sort_by_perm (fun p => arrival_t (store p)) ps), Hsort.
      exact Hx.
    + simpl. rewrite (sort_by_cons_length _ _ _ _ Hsort). lia.
Qed.

Lemma gantt_chart_spans_clock_witness :
  Z.of_nat (length (gantt_cells
              (snd (FCFS.execute (FCFS.admitted fcfs_main_objs [0; 1; 2; 3]%nat)))))
  = total_t (snd (FCFS.execute (FCFS.admitted fcfs_main_objs [0; 1; 2; 3]%nat))) /\
  Z.of_nat (length (gantt_cells
              (snd (SJF.execute (SJF.admitted fcfs_main_objs [0; 1; 2; 3]%nat)))))
  = total_t (snd (SJF.execute (SJF.admitted fcfs_main_objs [0; 1; 2; 3]%nat))).
Proof.
  destruct (gantt_chart_spans_clock fcfs_main_objs [0; 1; 2; 3]%nat)
    as (_ & Hf & Hs).
  - intros x Hx.
    repeat (apply elem_of_cons in Hx as [->|Hx]; [simpl; lia|]).
    inversion Hx.
  - split; [exact Hf|exact Hs].
Defined.

Lemma format_width_length (v : pyval) (pad : nat) (txt : string) :
  format_width v pad = Some txt -> py_len txt = cell_width (v, pad).
Proof.
  unfold cell_width. destruct v as [s|z|]; simpl; intros [= <-];
    rewrite py_len_append, py_len_str_mul; simpl; lia.
Qed.

Lemma print_detail_cells_length (cells : list (pyval * nat)) :
  forall out o,
    print_detail_cells cells out = Printed o ->
    py_len o =
    (py_len out + foldr (fun c n => cell_width c + 3 + n) 0 cells)%nat.
Proof.
  induction cells as [|[v pad] rest IH]; intros out o; simpl.
  - intros [= <-]. lia.
  - destruct (format_width v pad) as [txt|] eqn:Htxt; [|discriminate].
    intros Hrun. apply IH in Hrun. rewrite Hrun.
    apply format_width_length in Htxt.
    destruct rest; rewrite !py_len_print, !py_len_append, Htxt; simpl; lia.
Qed.







(** X17.  The row [print_history] writes for a process is never narrower than
    the separator line, because a value is padded to its column but
    never cut: counted in characters, the row, with its end of line,
    takes the widths of its six cells plus three characters each, and
    it is exactly as wide as the separator when every value fits its
    column. *)
Theorem print_row_width (p : Process) (out o : string) :
  print_detail_cells (zip (details p) paddings) out = Printed o ->
  py_len o =
    (py_len out +
     foldr (fun c n => cell_width c + 3 + n) 0 (zip (details p) paddings))%nat /\
  (py_len out + py_len separator + 1 <= py_len o)%nat /\
  (Forall (fun c => (py_len (py_str (fst c)) <= snd c)%nat)
          (zip (details p) paddings) ->
   py_len o = (py_len out + py_len separator + 1)%nat).
Proof.
  intros Hrun. apply print_detail_cells_length in Hrun.
  change (py_len separator) with 84%nat.
  revert Hrun. unfold details. change paddings with [3; 12; 10; 15; 15; 12]%nat.
  cbn [zip zip_with foldr]. unfold cell_width. cbn [fst snd].
  intros ->. split; [reflexivity|split; [lia|]].
  intros Hfit. repeat (apply Forall_cons in Hfit as [? Hfit]).
  cbn [fst snd] in *. lia.
Qed.

Lemma print_row_width_witness :
  py_len
    (match print_detail_cells
             (zip (details (mkProcess "P1" 1 3 (Some 8) (Some 7) (Some 4)))
                  paddings) "" with
     | Printed o => o
     | TypeError o => o
     end) = 85%nat.
Proof.
  apply (print_row_width (mkProcess "P1" 1 3 (Some 8) (Some 7) (Some 4)) "").
  - reflexivity.
  - repeat constructor.
Defined.

(** An id is padded by its characters, not by its bytes: the id U+00E9,
    one character in two bytes, gets two spaces in its column of three,
    and the row is as wide as the separator and its end of line. *)
Lemma print_row_accented_id :
  format_width (PyStr accented_id) 3 = Some (accented_id +:+ "  ") /\
  exists o,
    print_detail_cells
      (zip (details (mkProcess accented_id 1 3 (Some 8) (Some 7) (Some 4)))
           paddings) "" = Printed o /\
    py_len o = (py_len separator + 1)%nat.
Proof. split; [reflexivity|]. eexists. split; reflexivity. Qed.
